(** * express-async-methods: a shallow embedding of [src/index.js] and
    [src/utils/once.js], with the properties of the specification.

    Layout:
    - JavaScript values, function objects and completions;
    - [once] (src/utils/once.js);
    - [wrap], [wrapParam] and [_wrapArg] (src/index.js);
    - [_mainWrap] and the two wrapper closures run against a handler
      behaviour;
    - [addAsync] over a store of objects and arrays;
    - the theorems. *)

From stdpp Require Import gmap strings list fin_maps.

Open Scope string_scope.
Open Scope list_scope.

(** ** Values *)

(** Heap addresses of mutable objects and arrays. *)
Abbreviation loc := nat.

(** Function objects.  A user function is opaque apart from its declared
    parameter count; the closures built by [wrap] and [wrapParam] carry the
    variables they capture and the own properties that
    [Object.defineProperty] installs on them.  [wrapParam] never looks at
    what it captures, and [paramAsync] hands it its second argument
    unchecked: [None] stands for a captured value that is no function. *)
#[warnings="-register-all"]
Inductive jsfun : Type :=
  | UserFn (id : nat) (length : nat)
  | AsyncWrapped (fn : jsfun) (resIndex nextIndex : nat)
                 (length : nat) (name : string)
  | WrappedParamMiddleware (fn : option jsfun) (length : nat).

(** The values a registration call can receive. *)
#[warnings="-register-all"]
Inductive jsval : Type :=
  | VUndefined
  | VNull
  | VBoolean (b : bool)
  | VNumber (n : Z)
  | VBigInt (n : Z)
  | VString (s : string)
  | VSymbol (description : string)
  | VRegExp (source : string)
  | VTypeError (message : string)
  | VObject (l : loc)
  | VArray (elements : list jsval)
  | VFunction (f : jsfun).

(** The [typeof] operator. *)
Definition typeof (v : jsval) : string :=
  match v with
  | VUndefined => "undefined"
  | VNull => "object"
  | VBoolean _ => "boolean"
  | VNumber _ => "number"
  | VBigInt _ => "bigint"
  | VString _ => "string"
  | VSymbol _ => "symbol"
  | VRegExp _ => "object"
  | VTypeError _ => "object"
  | VObject _ => "object"
  | VArray _ => "object"
  | VFunction _ => "function"
  end.

(** [Array.isArray] and [util.types.isRegExp]. *)
Definition isArray (v : jsval) : bool :=
  match v with VArray _ => true | _ => false end.

Definition isRegExp (v : jsval) : bool :=
  match v with VRegExp _ => true | _ => false end.

(** A call either returns or throws. *)
Inductive completion (A : Type) : Type :=
  | Return (a : A)
  | Throw (e : jsval).
Arguments Return {A} a.
Arguments Throw {A} e.

Definition bind {A B} (c : completion A) (k : A -> completion B)
  : completion B :=
  match c with
  | Return a => k a
  | Throw e => Throw e
  end.

Notation "'let*' x := c 'in' k" := (bind c (fun x => k))
  (at level 10, x name, c at level 100, k at level 200).

(** ** Function lengths, [wrap] and [wrapParam] *)

(** The [length] property of a function object. *)
Definition fn_length (f : jsfun) : nat :=
  match f with
  | UserFn _ n => n
  | AsyncWrapped _ _ _ n _ => n
  | WrappedParamMiddleware _ n => n
  end.

(** [1 + isErrorHandler]: a boolean operand of [+] is coerced to 0 or 1. *)
Definition bool_to_number (b : bool) : nat := if b then 1 else 0.

(** [wrap], src/index.js lines 80-110. *)
Definition wrap (fn : jsfun) : jsfun :=
  let isErrorHandler := Nat.eqb (fn_length fn) 4 in
  let resIndex := 1 + bool_to_number isErrorHandler in
  let nextIndex := 2 + bool_to_number isErrorHandler in
  AsyncWrapped fn resIndex nextIndex
    (if isErrorHandler then 4 else 3)
    (if isErrorHandler then "wrappedErrorHandler" else "wrappedMiddleware").

(** [wrapParam], src/index.js lines 119-134, first for any captured
    value, then for a function. *)
Definition wrapParam_captured (fn : option jsfun) : jsfun :=
  WrappedParamMiddleware fn 5.

Definition wrapParam (fn : jsfun) : jsfun :=
  wrapParam_captured (Some fn).

(** ** The argument classifier *)

Definition unexpected_kind (kind : string) : jsval :=
  VTypeError ("An unexpected argument kind (" +:+ kind +:+
    ") has been given to the router. See <https://expressjs.com/en/api.html#app.METHOD>").

(** [Array.prototype.map] with a callback that may throw: elements are
    visited in index order and the first throw aborts the call. *)
Fixpoint array_map (f : jsval -> completion jsval) (l : list jsval)
  : completion (list jsval) :=
  match l with
  | [] => Return []
  | x :: r =>
      let* y := f x in
      let* ys := array_map f r in
      Return (y :: ys)
  end.

(** [_wrapArg], src/index.js lines 30-45.  The tests are taken in the
    order of the source. *)
Fixpoint _wrapArg (arg : jsval) : completion jsval :=
  match arg with
  | VString _ => Return arg
  | VFunction f => Return (VFunction (wrap f))
  | VArray elements =>
      let fix each (l : list jsval) : completion (list jsval) :=
        match l with
        | [] => Return []
        | x :: r =>
            let* y := _wrapArg x in
            let* ys := each r in
            Return (y :: ys)
        end in
      let* ys := each elements in
      Return (VArray ys)
  | VRegExp _ => Return arg
  | _ => Throw (unexpected_kind (typeof arg))
  end.

(** ** The once guard *)

Section Once.
(** The guarded function acts on some ambient state [S]: called with a
    receiver and an argument list, it changes the state and returns or
    throws. *)
Context {S : Type}.
Variable fn : jsval -> list jsval -> S -> S * completion jsval.

(** [onceWrapped], src/utils/once.js lines 11-17.  The closure variable
    [called] is threaded next to the ambient state; the flag is set
    before [fn] runs, and the value [fn] returns is dropped. *)
Definition onceWrapped (this : jsval) (arguments : list jsval)
    (st : bool * S) : (bool * S) * completion jsval :=
  let '(called, s) := st in
  if called then (st, Return VUndefined)
  else
    let called := true in
    let '(s', r) := fn this arguments s in
    ((called, s'), let* _ := r in Return VUndefined).

(** [once(fn)] allocates the closure with [called = false]. *)
Definition once (s : S) : bool * S := (false, s).

(** A series of calls of one guarded function, each by its own caller:
    a call that throws does not stop the later ones. *)
Fixpoint call_each (calls : list (jsval * list jsval)) (st : bool * S)
  : (bool * S) * list (completion jsval) :=
  match calls with
  | [] => (st, [])
  | (this, arguments) :: rest =>
      let '(st1, r) := onceWrapped this arguments st in
      let '(st2, rs) := call_each rest st1 in
      (st2, r :: rs)
  end.
End Once.

(** ** One invocation of a wrapped handler *)

(** What an entry of the [arguments] object of a wrapper closure holds:
    the request, the response, the continuation the framework supplies,
    the guard that the wrapper stores over it, or any other value.  Only
    the wrapper writes [SOnce]; the arguments of a caller hold none. *)
Inductive slot : Type :=
  | SRequest
  | SResponse
  | SNext
  | SOnce
  | SValue (v : jsval).

(** The framework side of one invocation: how its continuation completes
    when called with given arguments, whether the handlers it runs send
    the response, and how a user function found where the continuation
    was expected completes. *)
Record environment : Type := {
  next_throws : list jsval -> option jsval;
  next_sends : list jsval -> bool;
  user_call : jsfun -> list jsval -> completion jsval;
}.

(** The state the framework owns: the response's [headersSent] and the
    calls that reached its continuation. *)
Record framework : Type := {
  headersSent : bool;
  delivered : list (list jsval);
}.

Inductive caller : Type := ByHandler | ByWrapper.

(** The state of one invocation: the guard's [called], the framework
    state, and every call made on the guard, with its author. *)
Record world : Type := {
  called : bool;
  fw : framework;
  attempts : list (caller * list jsval);
}.

Definition not_a_function : jsval := VTypeError "not a function".
Definition cannot_read_property : jsval :=
  VTypeError "Cannot read properties of undefined".
Definition cannot_set_property : jsval :=
  VTypeError "Cannot set properties of undefined".

(** [fn.apply(this, arguments)] for the value [fn] that [once] captured,
    that is [arguments[nextIndex]] of the wrapper closure.  Reading
    [apply] of [undefined] (a missing entry) or of [null] throws; any
    other value that is no function has no [apply] to call. *)
Definition apply_slot (env : environment) (fn : option slot)
    (this : jsval) (arguments : list jsval) (s : framework)
  : framework * completion jsval :=
  match fn with
  | Some SNext =>
      ({| headersSent := headersSent s || next_sends env arguments;
          delivered := delivered s ++ [arguments] |},
       match next_throws env arguments with
       | Some e => Throw e
       | None => Return VUndefined
       end)
  | Some (SValue (VFunction f)) => (s, user_call env f arguments)
  | None | Some (SValue VUndefined) | Some (SValue VNull) =>
      (s, Throw cannot_read_property)
  | Some _ => (s, Throw not_a_function)
  end.

(** A call of the guard [once(arguments[nextIndex])]. *)
Definition call_guard (env : environment) (fn : option slot)
    (who : caller) (arguments : list jsval) (w : world)
  : world * completion jsval :=
  let '((c, s), r) :=
    onceWrapped (apply_slot env fn) VUndefined arguments (called w, fw w) in
  ({| called := c; fw := s; attempts := attempts w ++ [(who, arguments)] |},
   r).

(** [res.headersSent], coerced by [!]: reading a property of [undefined]
    or [null] throws, a value without the property gives [undefined]. *)
Definition read_headersSent (res : option slot) (w : world)
  : completion bool :=
  match res with
  | Some SResponse => Return (headersSent (fw w))
  | None | Some (SValue VUndefined) | Some (SValue VNull) =>
      Throw cannot_read_property
  | Some _ => Return false
  end.

(** What the handler does in one invocation, as far as the wrapper can
    tell: it sends the response, or it calls the continuation it was
    handed (inside a [try] that swallows a throw, or not). *)
Inductive action : Type :=
  | Send
  | CallNext (arguments : list jsval) (caught : bool).

Inductive settlement : Type :=
  | Fulfills
  | Rejects (e : jsval)
  | NeverSettles.

(** How the call [fn.apply(null, args)] ends: with a value that is not a
    promise, with a throw, or with a promise, which the handler's code
    settles after some more actions. *)
Inductive outcome : Type :=
  | Returns (v : jsval)
  | Throws (e : jsval)
  | ReturnsPromise (pending : list action) (s : settlement).

(** [body] runs inside the call, [later] are the callbacks it left
    behind (timers and the like), which run once the wrapper is done. *)
Record behaviour : Type := {
  body : list action;
  result : outcome;
  later : list action;
}.

Definition send (w : world) : world :=
  {| called := called w;
     fw := {| headersSent := true; delivered := delivered (fw w) |};
     attempts := attempts w |}.

(** One action of the handler.  The handler holds the guard only when it
    was passed among its arguments. *)
Definition run_action (env : environment) (fn : option slot)
    (holds_guard : bool) (a : action) (w : world)
  : world * completion jsval :=
  match a with
  | Send => (send w, Return VUndefined)
  | CallNext arguments caught =>
      let '(w', r) :=
        if holds_guard then call_guard env fn ByHandler arguments w
        else (w, Throw not_a_function) in
      (w', if caught then Return VUndefined else r)
  end.

(** Straight-line handler code: the first throw ends it. *)
Fixpoint run_actions (env : environment) (fn : option slot)
    (holds_guard : bool) (acts : list action) (w : world)
  : world * completion jsval :=
  match acts with
  | [] => (w, Return VUndefined)
  | a :: rest =>
      match run_action env fn holds_guard a w with
      | (w', Return _) => run_actions env fn holds_guard rest w'
      | (w', Throw e) => (w', Throw e)
      end
  end.

(** Callbacks left behind: each runs on its own, a throw is theirs. *)
Fixpoint run_later (env : environment) (fn : option slot)
    (holds_guard : bool) (acts : list action) (w : world) : world :=
  match acts with
  | [] => w
  | a :: rest =>
      run_later env fn holds_guard rest
        (fst (run_action env fn holds_guard a w))
  end.

(** The promise that the [async function _mainWrap] returns; the wrapper
    closures drop it, so [Rejected] is a rejection nobody handles. *)
Inductive status : Type :=
  | Fulfilled
  | Rejected (e : jsval)
  | Pending.

(** Where the [try] block stands once the handler's own code is over:
    the result was no promise, or the [await] resumed, or it never will. *)
Inductive awaited : Type :=
  | NotAPromise (v : jsval)
  | Resumed
  | Suspended.

Definition is_once (a : slot) : bool :=
  match a with SOnce => true | _ => false end.

Section MainWrap.
Variable env : environment.
(** [fn.apply(null, args)] is given by the behaviour of [fn] in this
    invocation; [next] is the guard, known by the value it captured. *)
Variable fn : behaviour.
Variable args : list slot.
Variable res : option slot.
Variable next : option slot.

(** The handler can call the guard when [apply] passed it on. *)
Definition holds_guard : bool := existsb is_once args.

(** Lines 58-62: [fn.apply(null, args)], the [isPromise] test and
    [await promise].  A throw of the call and a rejection of the
    awaited promise both leave the [try] block with the error. *)
Definition try_handler (w : world) : world * completion awaited :=
  match run_actions env next holds_guard (body fn) w with
  | (w1, Throw err) => (w1, Throw err)
  | (w1, Return _) =>
      match result fn with
      | Throws err => (w1, Throw err)
      | Returns v => (w1, Return (NotAPromise v))
      | ReturnsPromise pending s =>
          match run_actions env next holds_guard pending w1 with
          | (w2, Throw err) => (w2, Throw err)
          | (w2, Return _) =>
              match s with
              | Fulfills => (w2, Return Resumed)
              | Rejects err => (w2, Throw err)
              | NeverSettles => (w2, Return Suspended)
              end
          end
      end
  end.

(** The [catch (err)] clause, lines 67-70. *)
Definition catch_clause (err : jsval) (w : world) : world * status :=
  match read_headersSent res w with
  | Throw e => (w, Rejected e)
  | Return sent =>
      if negb sent then
        match call_guard env next ByWrapper [err] w with
        | (w', Return _) => (w', Fulfilled)
        | (w', Throw e) => (w', Rejected e)
        end
      else (w, Fulfilled)
  end.

(** The statements after [await promise], lines 64-65, still inside
    the [try]. *)
Definition after_await (w : world) : world * status :=
  match read_headersSent res w with
  | Throw err => catch_clause err w
  | Return sent =>
      if negb sent then
        match call_guard env next ByWrapper [] w with
        | (w', Return _) => (w', Fulfilled)
        | (w', Throw err) => catch_clause err w'
        end
      else (w, Fulfilled)
  end.

(** [_mainWrap], src/index.js lines 56-71, followed by the callbacks
    the handler left behind. *)
Definition _mainWrap (w : world) : world * status :=
  let '(w', st) :=
    match try_handler w with
    | (w1, Throw err) => catch_clause err w1
    | (w1, Return (NotAPromise _)) => (w1, Fulfilled)
    | (w1, Return Resumed) => after_await w1
    | (w1, Return Suspended) => (w1, Pending)
    end in
  (run_later env next holds_guard (later fn) w', st).
End MainWrap.

Definition fresh_world (s : framework) : world :=
  {| called := false; fw := s; attempts := [] |}.

(** The closure [asyncWrapped] of [wrap], lines 86-92: the entry at
    [nextIndex] is read, guarded and stored back (an index past the end
    adds nothing that [apply] would pass on), then [_mainWrap] runs. *)
Definition asyncWrapped (env : environment) (fn : behaviour)
    (resIndex nextIndex : nat) (arguments : list slot) (s : framework)
  : world * status :=
  let next := arguments !! nextIndex in
  let arguments := <[nextIndex := SOnce]> arguments in
  _mainWrap env fn arguments (arguments !! resIndex) next (fresh_world s).

(** The closure [wrappedParamMiddleware] of [wrapParam], lines 120-126. *)
Definition wrappedParamMiddleware (env : environment) (fn : behaviour)
    (arguments : list slot) (s : framework) : world * status :=
  let next := arguments !! 2 in
  let arguments := <[2 := SOnce]> arguments in
  _mainWrap env fn arguments (arguments !! 1) next (fresh_world s).

(** A call of a function object built by [wrap] or [wrapParam]; [fn] is
    what the captured function does in this call.  A user function is
    not a wrapper. *)
Definition invoke (env : environment) (f : jsfun) (fn : behaviour)
    (arguments : list slot) (s : framework) : option (world * status) :=
  match f with
  | AsyncWrapped _ resIndex nextIndex _ _ =>
      Some (asyncWrapped env fn resIndex nextIndex arguments s)
  | WrappedParamMiddleware _ _ =>
      Some (wrappedParamMiddleware env fn arguments s)
  | UserFn _ _ => None
  end.

(** The calls the wrapper's own code made on the guard. *)
Definition wrapper_calls (w : world) : list (list jsval) :=
  omap (fun a => match a with (ByWrapper, l) => Some l | _ => None end)
       (attempts w).

(** The positions at which a wrapper closure reads the response and the
    continuation. *)
Definition wrapper_indices (f : jsfun) : option (nat * nat) :=
  match f with
  | AsyncWrapped _ resIndex nextIndex _ _ => Some (resIndex, nextIndex)
  | WrappedParamMiddleware _ _ => Some (1, 2)
  | UserFn _ _ => None
  end.

(** The framework calls a wrapper with the response and its continuation
    at those positions. *)
Definition protocol (f : jsfun) (arguments : list slot) : Prop :=
  exists resIndex nextIndex,
    wrapper_indices f = Some (resIndex, nextIndex) /\
    arguments !! resIndex = Some SResponse /\
    arguments !! nextIndex = Some SNext.

(** The argument lists of the framework: four entries for an error
    handler, three for a middleware, five for a parameter hook. *)
Definition middleware_arguments : list slot :=
  [SRequest; SResponse; SNext].
Definition error_handler_arguments (err : jsval) : list slot :=
  [SValue err; SRequest; SResponse; SNext].

(** The handler's own code in a call of the wrapper [f], up to the point
    where the wrapper takes over: the [try_handler] step of the call. *)
Definition handler_run (env : environment) (f : jsfun) (fn : behaviour)
    (arguments : list slot) (s : framework)
  : option (world * completion awaited) :=
  match wrapper_indices f with
  | Some (_, nextIndex) =>
      Some (try_handler env fn (<[nextIndex := SOnce]> arguments)
              (arguments !! nextIndex) (fresh_world s))
  | None => None
  end.

(** ** Routable objects and [addAsync] *)

(** An own property of a routable object: a method of the framework
    itself, a value that cannot be called, or one of the three closures that [addAsync]
    installs, with the variables each captures. *)
Inductive prop : Type :=
  | PNative (name : string)
  | POther
  | PRouteAsync
  | PParamAsync (app : loc)
  | PMethodAsync (app : loc) (method : string).

(** The objects and the arrays of method names, by address: the caller
    and [addAsync] share them. *)
Record store : Type := {
  objects : gmap loc (gmap string prop);
  arrays : gmap loc (list string);
}.

Definition get_prop (σ : store) (o : loc) (key : string) : option prop :=
  objects σ !! o ≫= (.!! key).

(** [o[key] = p]. *)
Definition set_prop (o : loc) (key : string) (p : prop) (σ : store)
  : store :=
  {| objects := <[o := <[key := p]> (default ∅ (objects σ !! o))]> (objects σ);
     arrays := arrays σ |}.

Definition set_array (a : loc) (l : list string) (σ : store) : store :=
  {| objects := objects σ; arrays := <[a := l]> (arrays σ) |}.

(** [Array.prototype.indexOf]: the first index, [None] for -1. *)
Fixpoint indexOf (l : list string) (x : string) : option nat :=
  match l with
  | [] => None
  | y :: r => if String.eqb y x then Some 0 else S <$> indexOf r x
  end.

Definition default_methods : list string :=
  ["use"; "delete"; "get"; "head"; "param"; "patch"; "post"; "put"].

(** The [for (const method of methods)] loop, lines 170-188. *)
Fixpoint install_methods (app : loc) (methods : list string) (σ : store)
  : store :=
  match methods with
  | [] => σ
  | method :: rest =>
      install_methods app rest
        (set_prop app (method +:+ "Async") (PMethodAsync app method) σ)
  end.

(** The body of [addAsync], lines 148-190, for an [app] that is an object
    and a [methods] that is the array at [methods]. *)
Definition addAsync_object (app : loc) (methods : loc) (σ : store)
  : store * completion jsval :=
  let σ := set_prop app "routeAsync" PRouteAsync σ in
  match arrays σ !! methods with
  | None => (σ, Throw not_a_function)
  | Some l =>
      let paramIndex := indexOf l "param" in
      let σ :=
        match paramIndex with
        | Some i =>
            let σ := set_array methods (delete i l) σ in
            set_prop app "paramAsync" (PParamAsync app) σ
        | None => σ
        end in
      let σ := install_methods app (default [] (arrays σ !! methods)) σ in
      (σ, Return (VObject app))
  end.

(** [addAsync], lines 143-191.  A missing [methods] argument takes the
    default, a fresh array at every call.  When [app] is no object of the
    store: setting a property of [undefined] or [null] throws, and any
    other value carries no properties here, so that only the splice
    shows. *)
Definition addAsync (app : jsval) (methods : option loc) (σ : store)
  : store * completion jsval :=
  let '(methods, σ) :=
    match methods with
    | Some a => (a, σ)
    | None =>
        let a := fresh (dom (arrays σ)) in
        (a, set_array a default_methods σ)
    end in
  match app with
  | VObject o => addAsync_object o methods σ
  | VUndefined | VNull => (σ, Throw cannot_set_property)
  | _ =>
      match arrays σ !! methods with
      | None => (σ, Throw not_a_function)
      | Some l =>
          (match indexOf l "param" with
           | Some i => set_array methods (delete i l) σ
           | None => σ
           end, Return app)
      end
  end.

(** ** Calling the installed methods *)

Definition as_function (v : jsval) : option jsfun :=
  match v with VFunction f => Some f | _ => None end.

(** [arguments[i]] of a call. *)
Definition argument (arguments : list jsval) (i : nat) : jsval :=
  default VUndefined (arguments !! i).

Section Calls.
(** The framework is a collaborator: what its own methods do to the
    objects and what they return is left open.  It holds no reference
    to the arrays of method names. *)
Variable native :
  string -> loc -> list jsval -> gmap loc (gmap string prop) ->
  gmap loc (gmap string prop) * completion jsval.

Definition result_of_call : Type := option (store * completion jsval).

(** [o[key](...arguments)], given how a property value is called. *)
Definition call_member
    (call : prop -> loc -> list jsval -> store -> result_of_call)
    (o : loc) (key : string) (arguments : list jsval) (σ : store)
  : result_of_call :=
  match get_prop σ o key with
  | Some p => call p o arguments σ
  | None => Some (σ, Throw not_a_function)
  end.

(** A call of a property value with receiver [this].  One closure may
    reach another through the store, so the nesting of calls is
    bounded by [fuel]; [None] is a nesting deeper than that. *)
Fixpoint call (fuel : nat) (f : prop) (this : loc)
    (arguments : list jsval) (σ : store) : result_of_call :=
  match fuel with
  | 0 => None
  | S fuel =>
      match f with
      | PNative name =>
          let '(objs, r) := native name this arguments (objects σ) in
          Some ({| objects := objs; arrays := arrays σ |}, r)
      | POther => Some (σ, Throw not_a_function)
      | PRouteAsync =>
          (* return addAsync(this.route.apply(this, arguments)); *)
          match get_prop σ this "route" with
          | None => Some (σ, Throw cannot_read_property)
          | Some route =>
              match call fuel route this arguments σ with
              | None => None
              | Some (σ', Throw e) => Some (σ', Throw e)
              | Some (σ', Return v) => Some (addAsync v None σ')
              end
          end
      | PParamAsync app =>
          (* return app.param(name, wrapParam(callback)); *)
          let name := argument arguments 0 in
          let callback := argument arguments 1 in
          call_member (call fuel) app "param"
            [name; VFunction (wrapParam_captured (as_function callback))] σ
      | PMethodAsync app method =>
          (* const args = map.call(arguments, _wrapArg);
             return app[method](...args); *)
          match array_map _wrapArg arguments with
          | Throw e => Some (σ, Throw e)
          | Return args => call_member (call fuel) app method args σ
          end
      end
  end.

(** [o.key(...arguments)] from user code. *)
Definition call_method (fuel : nat) (o : loc) (key : string)
    (arguments : list jsval) (σ : store) : result_of_call :=
  call_member (call fuel) o key arguments σ.
End Calls.

(** ** The router constructor *)


Section Router.
(** [express.Router] belongs to the framework: it is handed the options,
    if any, and returns the router it made. *)
Variable express_Router :
  option jsval -> gmap loc (gmap string prop) ->
  gmap loc (gmap string prop) * completion jsval.

End Router.

(** ** Notions used to state the properties of [addAsync] *)

(** The names [addAsync] works with: those of the array it is passed, or
    the default ones. *)
Definition method_names (σ : store) (methods : option loc)
  : option (list string) :=
  match methods with
  | Some a => arrays σ !! a
  | None => Some default_methods
  end.

(** A list of names after [splice(indexOf("param"), 1)], if any. *)
Definition spliced (l : list string) : list string :=
  match indexOf l "param" with
  | Some i => delete i l
  | None => l
  end.

(** The assignments [addAsync] makes on the routable, in order, for the
    names [l]: property and value. *)
Definition installed (o : loc) (l : list string) : list (string * prop) :=
  ("routeAsync", PRouteAsync) ::
  match indexOf l "param" with
  | Some _ => [("paramAsync", PParamAsync o)]
  | None => []
  end ++
  map (fun m => (m +:+ "Async", PMethodAsync o m)) (spliced l).

(** A series of assignments on the properties of one object. *)
Definition assign (props : gmap string prop) (kvs : list (string * prop))
  : gmap string prop :=
  foldl (fun m kv => <[kv.1 := kv.2]> m) props kvs.

(** Two calls end alike: both nest too deep, or both complete the same
    way and leave the same objects. *)
Definition same_outcome (r1 r2 : option (store * completion jsval)) : Prop :=
  match r1, r2 with
  | None, None => True
  | Some (σ1, c1), Some (σ2, c2) => objects σ1 = objects σ2 /\ c1 = c2
  | _, _ => False
  end.

(** ** Sample invocations *)

(** A framework whose continuation returns normally and sends nothing. *)
Definition quiet_env : environment :=
  {| next_throws := fun _ => None;
     next_sends := fun _ => false;
     user_call := fun _ _ => Return VUndefined |}.


Definition idle : framework := {| headersSent := false; delivered := [] |}.

Definition oops : jsval := VTypeError "Oops!".

(** [async (req, res) => { res.send("Hello!"); }] *)
Definition sends_then_fulfills : behaviour :=
  {| body := [Send]; result := ReturnsPromise [] Fulfills; later := [] |}.


(** [async (req, res, next) => { throw new Error("Oops!"); }] *)
Definition rejects_with_oops : behaviour :=
  {| body := []; result := ReturnsPromise [] (Rejects oops); later := [] |}.

(** [(req, res, next) => { setTimeout(() => next(), 10); }] *)
Definition calls_next_later : behaviour :=
  {| body := []; result := Returns VUndefined; later := [CallNext [] false] |}.

(** [async (req, res) => { await new Promise(() => {}); }] *)
Definition never_settles : behaviour :=
  {| body := []; result := ReturnsPromise [] NeverSettles; later := [] |}.

(** [async (req, res, next) => { next(); throw new Error("Oops!"); }] *)
Definition calls_next_then_rejects : behaviour :=
  {| body := [CallNext [] false];
     result := ReturnsPromise [] (Rejects oops); later := [] |}.

(** The framework's continuation has received the first call made on
    the guard, and nothing else, since the state [s0]; the guard has
    fired exactly when it was called. *)
Definition first_call_delivered (s0 : framework) (w : world) : Prop :=
  delivered (fw w) = delivered s0 ++ take 1 (map snd (attempts w)) /\
  called w = match attempts w with [] => false | _ => true end.

(** ** Sample stores *)

(** A router with the framework's [get], [param] and [route], at
    address 0, and no array. *)
Definition router_store : store :=
  {| objects :=
       {[ 0 := {[ "get" := PNative "get"; "param" := PNative "param";
                  "route" := PNative "route" ]} ]};
     arrays := ∅ |}.

(** The same router, and at address 1 an array of names of the caller. *)
Definition store_with_names (l : list string) : store :=
  {| objects := objects router_store; arrays := {[ 1 := l ]} |}.

(** Framework methods that register nothing and return their second
    argument, to show what they were handed. *)
Definition hands_back (name : string) (this : loc) (arguments : list jsval)
    (objs : gmap loc (gmap string prop))
  : gmap loc (gmap string prop) * completion jsval :=
  (objs, Return (argument arguments 1)).

(** Framework methods that register nothing and return the receiver. *)
Definition chainable (name : string) (this : loc) (arguments : list jsval)
    (objs : gmap loc (gmap string prop))
  : gmap loc (gmap string prop) * completion jsval :=
  (objs, Return (VObject this)).

(** ** Notions used to state the properties of [_wrapArg] *)

(** The shapes the classifier accepts: a string, a function, a RegExp,
    or an array of accepted shapes. *)
Fixpoint admissible (v : jsval) : bool :=
  match v with
  | VString _ | VFunction _ | VRegExp _ => true
  | VArray l => forallb admissible l
  | _ => false
  end.

(** A value with every function in it replaced by [wrap] of it. *)
Fixpoint normalized (v : jsval) : jsval :=
  match v with
  | VFunction f => VFunction (wrap f)
  | VArray l => VArray (map normalized l)
  | _ => v
  end.

(** The first leaf, in the order of the indices, that the classifier
    refuses. *)
Fixpoint first_refused (v : jsval) : option jsval :=
  match v with
  | VString _ | VFunction _ | VRegExp _ => None
  | VArray l =>
      (fix among (l : list jsval) : option jsval :=
         match l with
         | [] => None
         | x :: r =>
             match first_refused x with
             | Some bad => Some bad
             | None => among r
             end
         end) l
  | _ => Some v
  end.

(** * Properties *)

(** ** Values and the classifier *)

(** Induction on values that reaches the elements of an array. *)
Lemma jsval_nested_ind (P : jsval -> Prop) :
  (forall v, isArray v = false -> P v) ->
  (forall l, Forall P l -> P (VArray l)) ->
  forall v, P v.
Proof.
  intros Hleaf Harr.
  fix IH 1. intros v.
  destruct v as [| | | | | | | | | |elements|];
    try (apply Hleaf; reflexivity).
  apply Harr. induction elements as [|x r IHr]; constructor; [apply IH|exact IHr].
Qed.

Lemma _wrapArg_array (elements : list jsval) :
  _wrapArg (VArray elements) =
    (let* ys := array_map _wrapArg elements in Return (VArray ys)).
Proof.
  cbn [_wrapArg]. f_equal.
  induction elements as [|x r IH]; cbn [array_map]; [done|].
  by rewrite IH.
Qed.

(** [array_map] returns exactly when the callback returns on every
    element, with the results in the order of the elements. *)
Lemma array_map_Return (f : jsval -> completion jsval) (l ys : list jsval) :
  array_map f l = Return ys <-> Forall2 (fun x y => f x = Return y) l ys.
Proof.
  revert ys. induction l as [|x r IH]; intros ys; cbn [array_map].
  - split.
    + intros [= <-]. constructor.
    + intros H. by inversion H.
  - destruct (f x) as [y|e] eqn:Hx; cbn [bind].
    + destruct (array_map f r) as [zs|e] eqn:Hr; cbn [bind].
      * split.
        -- intros [= <-]. constructor; [done|]. by apply IH.
        -- intros H. inversion H as [|? y' ? zs' Hy Hzs]; subst.
           rewrite Hx in Hy. injection Hy as <-.
           apply IH in Hzs. by injection Hzs as <-.
      * split; [done|].
        intros H. inversion H as [|? ? ? zs' _ Hzs]; subst.
        by apply IH in Hzs.
    + split; [done|].
      intros H. inversion H as [|? ? ? ? Hy _]; subst. by rewrite Hx in Hy.
Qed.

(** [array_map] throws what the callback throws on some element. *)
Lemma array_map_Throw (f : jsval -> completion jsval) (l : list jsval) e :
  array_map f l = Throw e -> exists x, x ∈ l /\ f x = Throw e.
Proof.
  induction l as [|x r IH]; cbn [array_map]; [done|].
  destruct (f x) as [y|e'] eqn:Hx; cbn [bind].
  - destruct (array_map f r) as [zs|e'] eqn:Hr; cbn [bind]; [done|].
    intros [= ->]. destruct (IH eq_refl) as (z & Hz & Hfz).
    exists z. split; [by right|done].
  - intros [= ->]. exists x. split; [by left|done].
Qed.

(** If the callback throws on an element, [array_map] throws. *)
Lemma array_map_throws (f : jsval -> completion jsval) (l : list jsval) x e :
  x ∈ l -> f x = Throw e -> exists e', array_map f l = Throw e'.
Proof.
  intros Hin Hx. induction Hin as [x r|x y r Hin IH]; cbn [array_map].
  - rewrite Hx. by eexists.
  - destruct (f y); cbn [bind]; [|by eexists].
    destruct (IH Hx) as [e' ->]. by eexists.
Qed.

(** The classifier throws nothing but its own error. *)
Lemma _wrapArg_Throw (arg : jsval) e :
  _wrapArg arg = Throw e -> exists kind, e = unexpected_kind kind.
Proof.
  revert e. induction arg as [v Hv|l IH] using jsval_nested_ind; intros e.
  - destruct v; try discriminate; cbn; intros [= <-]; by eexists.
  - rewrite _wrapArg_array.
    destruct (array_map _wrapArg l) as [ys|e'] eqn:Hl; cbn [bind]; [done|].
    intros [= ->]. apply array_map_Throw in Hl as (x & Hx & Hfx).
    rewrite Forall_forall in IH. by eapply IH.
Qed.

(** The classifier, by the tests of the source in their order. *)
Lemma _wrapArg_by_tests (arg : jsval) :
  _wrapArg arg =
    if String.eqb (typeof arg) "string" then Return arg
    else if String.eqb (typeof arg) "function" then
      match arg with
      | VFunction f => Return (VFunction (wrap f))
      | _ => Return arg
      end
    else if isArray arg then
      match arg with
      | VArray l => let* ys := array_map _wrapArg l in Return (VArray ys)
      | _ => Return arg
      end
    else if isRegExp arg then Return arg
    else Throw (unexpected_kind (typeof arg)).
Proof. destruct arg; try reflexivity. apply _wrapArg_array. Qed.

(** ** The once guard *)

Lemma call_each_called {S} (fn : jsval -> list jsval -> S -> S * completion jsval)
    (calls : list (jsval * list jsval)) (s : S) :
  call_each fn calls (true, s) =
    ((true, s), map (fun _ => Return VUndefined) calls).
Proof.
  induction calls as [|[this arguments] rest IH]; [done|].
  cbn [call_each onceWrapped]. by rewrite IH.
Qed.

(** C5. A guarded function forwards its first call to [fn], with the
    receiver and the arguments of that call, and every later call returns
    [undefined] without touching anything: after N >= 1 calls the state
    is the state after [fn] ran once on the first call's receiver and
    arguments, as if only the first call had been made, and the later
    calls' arguments play no part. *)
Theorem once_forwards_first_call_only {S}
    (fn : jsval -> list jsval -> S -> S * completion jsval)
    (this : jsval) (arguments : list jsval)
    (rest : list (jsval * list jsval)) (s : S) :
  call_each fn ((this, arguments) :: rest) (once s) =
    ((true, fst (fn this arguments s)),
     (let* _ := snd (fn this arguments s) in Return VUndefined)
       :: map (fun _ => Return VUndefined) rest) /\
  fst (call_each fn ((this, arguments) :: rest) (once s)) =
    fst (call_each fn [(this, arguments)] (once s)).
Proof.
  unfold once. cbn [call_each onceWrapped].
  destruct (fn this arguments s) as [s' r]. cbn [fst snd].
  by rewrite call_each_called.
Qed.

(** ** Declared arity *)

(** C6. [wrap(h)] reports length 4 when [h] is declared with four
    parameters and 3 otherwise; [wrapParam(h)] reports 5 whatever the
    length of [h]. *)
Theorem wrap_reports_arity (h : jsfun) :
  fn_length (wrap h) = (if decide (fn_length h = 4) then 4 else 3) /\
  fn_length (wrapParam h) = 5.
Proof.
  split; [|done]. unfold wrap. cbn [fn_length].
  case_decide as H.
  - by rewrite H.
  - by apply Nat.eqb_neq in H as ->.
Qed.

(** ** One invocation: the guard's invariant *)

Lemma call_guard_unfold env fn who arguments w :
  call_guard env fn who arguments w =
    if called w then
      ({| called := true; fw := fw w;
          attempts := attempts w ++ [(who, arguments)] |},
       Return VUndefined)
    else
      ({| called := true;
          fw := fst (apply_slot env fn VUndefined arguments (fw w));
          attempts := attempts w ++ [(who, arguments)] |},
       let* _ := snd (apply_slot env fn VUndefined arguments (fw w)) in
       Return VUndefined).
Proof.
  unfold call_guard, onceWrapped.
  destruct (called w) eqn:Hc; [done|].
  by destruct (apply_slot env fn VUndefined arguments (fw w)).
Qed.

(** What reached the framework's continuation since the state [s0]: at
    most one call, and none while the guard has not fired. *)
Definition guarded (s0 : framework) (w : world) : Prop :=
  exists calls,
    delivered (fw w) = delivered s0 ++ calls /\
    if called w then length calls <= 1 else calls = [].

Lemma guarded_fresh s : guarded s (fresh_world s).
Proof. exists []. split; [by rewrite app_nil_r|done]. Qed.

Lemma apply_slot_delivered env fn this arguments s :
  delivered (fst (apply_slot env fn this arguments s)) = delivered s \/
  delivered (fst (apply_slot env fn this arguments s)) =
    delivered s ++ [arguments].
Proof.
  destruct fn as [[| | | |[]]|]; cbn; auto.
Qed.

Lemma guarded_call_guard env fn who arguments s0 w :
  guarded s0 w -> guarded s0 (fst (call_guard env fn who arguments w)).
Proof.
  intros (calls & Hd & Hc). rewrite call_guard_unfold.
  destruct (called w) eqn:Hcalled; cbn [fst]; unfold guarded; cbn [called fw].
  - by exists calls.
  - subst calls. rewrite app_nil_r in Hd.
    destruct (apply_slot_delivered env fn VUndefined arguments (fw w))
      as [-> | ->]; rewrite Hd.
    + exists []. split; [by rewrite app_nil_r|cbn; lia].
    + exists [arguments]. split; [done|cbn; lia].
Qed.

Lemma guarded_send s0 w : guarded s0 w -> guarded s0 (send w).
Proof. intros (calls & Hd & Hc). by exists calls. Qed.

Lemma guarded_run_action env fn holds a s0 w :
  guarded s0 w -> guarded s0 (fst (run_action env fn holds a w)).
Proof.
  intros H. destruct a as [|arguments caught]; cbn [run_action fst].
  - by apply guarded_send.
  - destruct holds; [|done].
    pose proof (guarded_call_guard env fn ByHandler arguments s0 w H) as H'.
    by destruct (call_guard env fn ByHandler arguments w).
Qed.

Lemma guarded_run_actions env fn holds acts s0 w :
  guarded s0 w -> guarded s0 (fst (run_actions env fn holds acts w)).
Proof.
  revert w. induction acts as [|a rest IH]; intros w H; [done|].
  cbn [run_actions].
  pose proof (guarded_run_action env fn holds a s0 w H) as H'.
  destruct (run_action env fn holds a w) as [w' [v|e]]; [by apply IH|done].
Qed.

Lemma guarded_run_later env fn holds acts s0 w :
  guarded s0 w -> guarded s0 (run_later env fn holds acts w).
Proof.
  revert w. induction acts as [|a rest IH]; intros w H; [done|].
  cbn [run_later]. by apply IH, guarded_run_action.
Qed.

Lemma guarded_catch_clause env res next err s0 w :
  guarded s0 w -> guarded s0 (fst (catch_clause env res next err w)).
Proof.
  intros H. unfold catch_clause.
  destruct (read_headersSent res w) as [[]|e]; cbn; try done.
  pose proof (guarded_call_guard env next ByWrapper [err] s0 w H) as H'.
  by destruct (call_guard env next ByWrapper [err] w) as [w' [v|e]].
Qed.

Lemma guarded_after_await env res next s0 w :
  guarded s0 w -> guarded s0 (fst (after_await env res next w)).
Proof.
  intros H. unfold after_await.
  destruct (read_headersSent res w) as [[]|e]; cbn; try done.
  - pose proof (guarded_call_guard env next ByWrapper [] s0 w H) as H'.
    destruct (call_guard env next ByWrapper [] w) as [w' [v|e]]; [done|].
    by apply guarded_catch_clause.
  - by apply guarded_catch_clause.
Qed.

Lemma guarded_try_handler env fn args next s0 w :
  guarded s0 w -> guarded s0 (fst (try_handler env fn args next w)).
Proof.
  intros H. unfold try_handler.
  pose proof (guarded_run_actions env next (holds_guard args) (body fn) s0 w H)
    as H1.
  destruct (run_actions env next (holds_guard args) (body fn) w)
    as [w1 [v|e]]; [|done].
  destruct (result fn) as [v'|e|pending s]; [done|done|].
  pose proof (guarded_run_actions env next (holds_guard args) pending s0 w1 H1)
    as H2.
  destruct (run_actions env next (holds_guard args) pending w1)
    as [w2 [v'|e]]; [|done].
  by destruct s.
Qed.

Lemma guarded_mainWrap env fn args res next s0 w :
  guarded s0 w -> guarded s0 (fst (_mainWrap env fn args res next w)).
Proof.
  intros H. unfold _mainWrap.
  pose proof (guarded_try_handler env fn args next s0 w H) as H1.
  destruct (try_handler env fn args next w) as [w1 [[v| |]|err]];
    cbn [fst] in H1.
  - by apply guarded_run_later.
  - pose proof (guarded_after_await env res next s0 w1 H1) as H2.
    destruct (after_await env res next w1) as [w' st].
    by apply guarded_run_later.
  - by apply guarded_run_later.
  - pose proof (guarded_catch_clause env res next err s0 w1 H1) as H2.
    destruct (catch_clause env res next err w1) as [w' st].
    by apply guarded_run_later.
Qed.

(** C1. In every invocation of a function built by [wrap] or by
    [wrapParam], whatever the handler does, whatever the arguments and
    whatever the framework's continuation does when called, the calls
    that reach the framework's continuation during the invocation are
    none or exactly one (one call, of the success or of the error kind):
    never two, however many times the handler's code and the wrapper's
    own code call the guard. *)
Theorem continuation_called_at_most_once
    (env : environment) (h : jsfun) (fn : behaviour)
    (arguments : list slot) (s : framework) :
  (exists w st calls,
     invoke env (wrap h) fn arguments s = Some (w, st) /\
     delivered (fw w) = delivered s ++ calls /\
     (calls = [] \/ exists a, calls = [a])) /\
  (exists w st calls,
     invoke env (wrapParam h) fn arguments s = Some (w, st) /\
     delivered (fw w) = delivered s ++ calls /\
     (calls = [] \/ exists a, calls = [a])).
Proof.
  assert (Hshape : forall w, guarded s w ->
            exists calls, delivered (fw w) = delivered s ++ calls /\
                          (calls = [] \/ exists a, calls = [a])).
  { intros w (calls & Hd & Hc). exists calls. split; [done|].
    destruct calls as [|a [|b r]]; [by left|right; by exists a|].
    destruct (called w); cbn in Hc; [lia|done]. }
  split.
  - cbn [invoke wrap]. unfold asyncWrapped.
    match goal with |- context [_mainWrap ?e ?f ?a ?r ?n ?w0] =>
      pose proof (guarded_mainWrap e f a r n s w0 (guarded_fresh s)) as H;
      destruct (_mainWrap e f a r n w0) as [w st] end.
    destruct (Hshape w H) as (calls & Hd & Hc). by exists w, st, calls.
  - cbn [invoke wrapParam wrapParam_captured]. unfold wrappedParamMiddleware.
    match goal with |- context [_mainWrap ?e ?f ?a ?r ?n ?w0] =>
      pose proof (guarded_mainWrap e f a r n s w0 (guarded_fresh s)) as H;
      destruct (_mainWrap e f a r n w0) as [w st] end.
    destruct (Hshape w H) as (calls & Hd & Hc). by exists w, st, calls.
Qed.

(** ** One invocation: what the wrapper's own code does *)

Lemma wrapper_calls_call_guard env fn who arguments w :
  wrapper_calls (fst (call_guard env fn who arguments w)) =
    wrapper_calls w ++
      match who with ByWrapper => [arguments] | ByHandler => [] end.
Proof.
  rewrite call_guard_unfold. unfold wrapper_calls.
  destruct (called w); cbn [fst attempts]; rewrite omap_app; by destruct who.
Qed.

Lemma wrapper_calls_run_action env fn holds a w :
  wrapper_calls (fst (run_action env fn holds a w)) = wrapper_calls w.
Proof.
  destruct a as [|arguments caught]; cbn [run_action]; [done|].
  destruct holds; [|done].
  pose proof (wrapper_calls_call_guard env fn ByHandler arguments w) as H.
  destruct (call_guard env fn ByHandler arguments w) as [w' r].
  cbn [fst] in *. by rewrite H, app_nil_r.
Qed.

Lemma wrapper_calls_run_actions env fn holds acts w :
  wrapper_calls (fst (run_actions env fn holds acts w)) = wrapper_calls w.
Proof.
  revert w. induction acts as [|a rest IH]; intros w; [done|].
  cbn [run_actions].
  pose proof (wrapper_calls_run_action env fn holds a w) as H.
  destruct (run_action env fn holds a w) as [w' [v|e]]; cbn [fst] in *.
  - by rewrite IH.
  - done.
Qed.

Lemma wrapper_calls_run_later env fn holds acts w :
  wrapper_calls (run_later env fn holds acts w) = wrapper_calls w.
Proof.
  revert w. induction acts as [|a rest IH]; intros w; [done|].
  cbn [run_later]. by rewrite IH, wrapper_calls_run_action.
Qed.

Lemma wrapper_calls_try_handler env fn args next w :
  wrapper_calls (fst (try_handler env fn args next w)) = wrapper_calls w.
Proof.
  unfold try_handler.
  pose proof (wrapper_calls_run_actions env next (holds_guard args) (body fn) w)
    as H1.
  destruct (run_actions env next (holds_guard args) (body fn) w)
    as [w1 [v|e]]; cbn [fst] in H1; [|done].
  destruct (result fn) as [v'|e|pending s]; [done|done|].
  pose proof (wrapper_calls_run_actions env next (holds_guard args) pending w1)
    as H2.
  destruct (run_actions env next (holds_guard args) pending w1)
    as [w2 [v'|e]]; cbn [fst] in H2; [|by rewrite <- H1, <- H2].
  destruct s; cbn [fst]; by rewrite <- H1, <- H2.
Qed.

(** Once the guard has fired, nothing more reaches the continuation. *)
Lemma call_guard_called env fn who arguments w :
  called w = true ->
  call_guard env fn who arguments w =
    ({| called := true; fw := fw w;
        attempts := attempts w ++ [(who, arguments)] |}, Return VUndefined).
Proof. intros H. by rewrite call_guard_unfold, H. Qed.



(** A call that follows the protocol reads the response and guards the
    framework's continuation, and the handler is passed the guard. *)
Lemma protocol_invoke env f fn arguments s :
  protocol f arguments ->
  exists args',
    holds_guard args' = true /\
    invoke env f fn arguments s =
      Some (_mainWrap env fn args' (Some SResponse) (Some SNext)
              (fresh_world s)) /\
    handler_run env f fn arguments s =
      Some (try_handler env fn args' (Some SNext) (fresh_world s)).
Proof.
  intros (r & n & Hi & Hr & Hn).
  assert (Hne : n ≠ r) by (intros ->; congruence).
  exists (<[n := SOnce]> arguments).
  assert (Hg : holds_guard (<[n := SOnce]> arguments) = true).
  { unfold holds_guard. apply existsb_exists. exists SOnce. split; [|done].
    apply list_elem_of_In, list_elem_of_lookup. exists n.
    apply list_lookup_insert_eq. by eapply lookup_lt_Some. }
  split; [done|].
  unfold handler_run. rewrite Hi, Hn. split; [|done].
  destruct f as [id k|g r' n' k nm|g k]; cbn in Hi; [done| |];
    injection Hi as <- <-; cbn [invoke];
    unfold asyncWrapped, wrappedParamMiddleware;
    by rewrite list_lookup_insert_ne, Hr, Hn.
Qed.




(** The arguments the framework passes follow the protocol. *)
Lemma protocol_wrap_middleware (h : jsfun) :
  fn_length h ≠ 4 -> protocol (wrap h) middleware_arguments.
Proof.
  intros H. exists 1, 2. unfold wrap. apply Nat.eqb_neq in H as ->. done.
Qed.

Lemma protocol_wrap_error_handler (h : jsfun) (err : jsval) :
  fn_length h = 4 -> protocol (wrap h) (error_handler_arguments err).
Proof. intros H. exists 2, 3. unfold wrap. rewrite H. done. Qed.






(** C4. When the handler returns normally with a value that is not a
    promise, the wrapper's promise is fulfilled at once and the wrapper
    itself makes no call of the continuation: every call of the guard in
    the invocation is the handler's. *)
Theorem plain_handler_keeps_continuation
    (env : environment) (f : jsfun) (fn : behaviour)
    (arguments : list slot) (s : framework) (w1 : world) (v : jsval) :
  handler_run env f fn arguments s = Some (w1, Return (NotAPromise v)) ->
  exists w,
    invoke env f fn arguments s = Some (w, Fulfilled) /\
    wrapper_calls w = [] /\
    Forall (fun a => fst a = ByHandler) (attempts w).
Proof.
  intros Hrun. unfold handler_run in Hrun.
  assert (Hnone : forall w, wrapper_calls w = [] ->
            Forall (fun a => fst a = ByHandler) (attempts w)).
  { intros w. unfold wrapper_calls.
    induction (attempts w) as [|[[] l] r IH]; cbn; [done| |done].
    destruct (omap _ r); constructor; auto. }
  destruct f as [id k|g r n k nm|g k]; cbn in Hrun; [done| |];
    injection Hrun as Hrun; cbn [invoke];
    unfold asyncWrapped, wrappedParamMiddleware, _mainWrap;
    match goal with H : try_handler ?e ?b ?a ?nx ?w0 = _ |- _ =>
      pose proof (wrapper_calls_try_handler e b a nx w0) as Hwc;
      rewrite H in *; cbn [fst] in Hwc end;
    eexists; (split; [done|]);
    (assert (Hw : forall x y z, wrapper_calls (run_later env x y z w1) = [])
       by (intros; by rewrite wrapper_calls_run_later));
    split; [apply Hw|apply Hnone, Hw|apply Hw|apply Hnone, Hw].
Qed.



Lemma plain_handler_keeps_continuation_witness :
  exists w,
    invoke quiet_env (wrap (UserFn 0 3)) calls_next_later
      middleware_arguments idle = Some (w, Fulfilled) /\
    wrapper_calls w = [] /\
    delivered (fw w) = [[]].
Proof.
  destruct (plain_handler_keeps_continuation quiet_env (wrap (UserFn 0 3))
              calls_next_later middleware_arguments idle
              (fresh_world idle) VUndefined)
    as (w & Hinv & Hw & _).
  - reflexivity.
  - exists w. split; [exact Hinv|]. split; [exact Hw|].
    cbn in Hinv. injection Hinv as <-. reflexivity.
Defined.

(** A handler that sent the response is not continued. *)
Example early_exit_is_not_continued :
  (fun r => (wrapper_calls (fst r), delivered (fw (fst r)), snd r)) <$>
    invoke quiet_env (wrap (UserFn 0 2)) sends_then_fulfills
      middleware_arguments idle = Some ([], [], Fulfilled).
Proof. reflexivity. Qed.

(** ** The store *)

Lemma string_length_app (s t : string) :
  String.length (s +:+ t) = String.length s + String.length t.
Proof.
  induction s as [|a s IH]; [done|].
  change (String a s +:+ t) with (String a (s +:+ t)).
  cbn [String.length]. by rewrite IH.
Qed.

Lemma string_app_inj_r (s1 s2 t : string) :
  s1 +:+ t = s2 +:+ t -> s1 = s2.
Proof.
  revert s2. induction s1 as [|a s1 IH]; intros [|b s2] H.
  - done.
  - apply (f_equal String.length) in H.
    rewrite !string_length_app in H. cbn in H. lia.
  - apply (f_equal String.length) in H.
    rewrite !string_length_app in H. cbn in H. lia.
  - change (String a (s1 +:+ t) = String b (s2 +:+ t)) in H.
    injection H as -> H. f_equal. by apply IH.
Qed.

Lemma get_prop_set_prop o key p σ o' key' :
  get_prop (set_prop o key p σ) o' key' =
    if decide (o = o' /\ key = key') then Some p else get_prop σ o' key'.
Proof.
  unfold get_prop, set_prop. cbn [objects].
  destruct (decide (o = o')) as [<-|Ho].
  - rewrite lookup_insert_eq. cbn.
    destruct (decide (key = key')) as [<-|Hk].
    + rewrite lookup_insert_eq. by rewrite decide_True.
    + rewrite lookup_insert_ne by done.
      rewrite decide_False by (by intros [_ ?]).
      by destruct (objects σ !! o).
  - rewrite lookup_insert_ne by done.
    by rewrite decide_False by (by intros [? _]).
Qed.

Lemma arrays_install_methods app l σ :
  arrays (install_methods app l σ) = arrays σ.
Proof. revert σ. induction l as [|x r IH]; intros σ; [done|]. cbn. by rewrite IH. Qed.

(** The loop leaves alone every property it does not name. *)
Lemma get_prop_install_methods_other app l σ o key :
  o ≠ app \/ (forall m, m ∈ l -> key ≠ m +:+ "Async") ->
  get_prop (install_methods app l σ) o key = get_prop σ o key.
Proof.
  revert σ. induction l as [|x r IH]; intros σ H; [done|].
  cbn [install_methods]. rewrite IH.
  - rewrite get_prop_set_prop. rewrite decide_False; [done|].
    intros [-> <-]. destruct H as [H|H]; [done|].
    by apply (H x); [left|].
  - destruct H as [H|H]; [by left|right].
    intros m Hm. apply H. by right.
Qed.

(** Each name of the loop ends up with its wrapper. *)
Lemma get_prop_install_methods app l σ m :
  m ∈ l ->
  get_prop (install_methods app l σ) app (m +:+ "Async") =
    Some (PMethodAsync app m).
Proof.
  revert σ. induction l as [|x r IH]; intros σ H; [by inversion H|].
  cbn [install_methods].
  destruct (decide (m ∈ r)) as [Hr|Hr]; [by apply IH|].
  assert (x = m) as -> by (inversion H; by subst).
  rewrite get_prop_install_methods_other.
  - rewrite get_prop_set_prop. by rewrite decide_True.
  - right. intros m' Hm' Heq. apply string_app_inj_r in Heq. by subst.
Qed.

Lemma indexOf_Some l x i :
  indexOf l x = Some i ->
  l !! i = Some x /\ x ∉ take i l.
Proof.
  revert i. induction l as [|y r IH]; intros i; cbn [indexOf]; [done|].
  destruct (String.eqb y x) eqn:Heq.
  - apply String.eqb_eq in Heq as ->. intros [= <-]. cbn.
    split; [done|]. apply not_elem_of_nil.
  - apply String.eqb_neq in Heq.
    destruct (indexOf r x) as [j|] eqn:Hj; cbn; [|done].
    intros [= <-]. destruct (IH j eq_refl) as [Hl Hn]. cbn.
    split; [done|]. intros Hin. apply elem_of_cons in Hin as [->|Hin]; done.
Qed.

Lemma indexOf_None l x : indexOf l x = None <-> x ∉ l.
Proof.
  induction l as [|y r IH]; cbn [indexOf].
  - split; [intros _; apply not_elem_of_nil|done].
  - destruct (String.eqb y x) eqn:Heq.
    + apply String.eqb_eq in Heq as ->. split; [done|].
      intros H. exfalso. apply H. by left.
    + apply String.eqb_neq in Heq.
      destruct (indexOf r x) as [j|] eqn:Hj; cbn.
      * split; [done|]. intros H. exfalso. apply H. right.
        destruct (decide (x ∈ r)) as [|Hn]; [done|].
        by apply IH in Hn.
      * split; [|done]. intros _ Hin.
        apply elem_of_cons in Hin as [->|Hin]; [done|].
        by apply (proj1 IH).
Qed.

Lemma assign_union (props : gmap string prop) (kvs : list (string * prop)) :
  assign props kvs = list_to_map (reverse kvs) ∪ props.
Proof.
  revert props. induction kvs as [|[k v] r IH]; intros props.
  - cbn. by rewrite (left_id_L ∅ (∪)).
  - cbn [assign foldl]. fold (assign (<[k:=v]> props) r). rewrite IH.
    rewrite reverse_cons, list_to_map_app. cbn [list_to_map foldr fst snd].
    rewrite <- (assoc_L (∪)). f_equal.
    rewrite insert_empty. apply insert_union_singleton_l.
Qed.

(** Making the same assignments again changes nothing. *)
Lemma assign_idemp (props : gmap string prop) (kvs : list (string * prop)) :
  assign (assign props kvs) kvs = assign props kvs.
Proof.
  rewrite !assign_union. rewrite (assoc_L (∪)). f_equal.
  apply (idemp_L (∪)).
Qed.

Lemma objects_set_prop o key p σ P O :
  objects σ = <[o := P]> O ->
  objects (set_prop o key p σ) = <[o := <[key := p]> P]> O.
Proof.
  intros H. unfold set_prop. cbn [objects]. rewrite H.
  rewrite lookup_insert_eq. cbn. by rewrite insert_insert_eq.
Qed.

Lemma objects_install_methods o l σ P O :
  objects σ = <[o := P]> O ->
  objects (install_methods o l σ) =
    <[o := assign P (map (fun m => (m +:+ "Async", PMethodAsync o m)) l)]> O.
Proof.
  revert σ P. induction l as [|x r IH]; intros σ P H; [done|].
  cbn [install_methods map assign foldl fst snd].
  by apply IH, objects_set_prop.
Qed.

(** [addAsync] on an object: it returns that object, the object has the
    assignments of [installed] on top of what it had, and the array it
    was passed holds the spliced names. *)
Lemma addAsync_object_spec o m σ l :
  arrays σ !! m = Some l ->
  exists σ',
    addAsync_object o m σ = (σ', Return (VObject o)) /\
    objects σ' =
      <[o := assign (default ∅ (objects σ !! o)) (installed o l)]> (objects σ) /\
    arrays σ' = <[m := spliced l]> (arrays σ).
Proof.
  intros Hl. unfold addAsync_object. cbn [set_prop arrays]. rewrite Hl.
  eexists. split; [done|].
  pose proof (eq_refl (set_prop o "routeAsync" PRouteAsync σ)) as _.
  assert (H0 : objects (set_prop o "routeAsync" PRouteAsync σ) =
               <[o := <["routeAsync" := PRouteAsync]>
                        (default ∅ (objects σ !! o))]> (objects σ)) by done.
  unfold installed, spliced.
  destruct (indexOf l "param") as [i|] eqn:Hi.
  - split.
    + cbn [set_prop set_array arrays]. rewrite lookup_insert_eq. cbn [default].
      erewrite objects_install_methods; [done|].
      apply objects_set_prop. exact H0.
    + by rewrite arrays_install_methods.
  - split.
    + cbn [set_prop arrays]. rewrite Hl. cbn [default].
      erewrite objects_install_methods; [done|]. exact H0.
    + rewrite arrays_install_methods. cbn [set_prop arrays].
      by rewrite insert_id.
Qed.

Lemma addAsync_spec o methods σ l :
  method_names σ methods = Some l ->
  exists σ',
    addAsync (VObject o) methods σ = (σ', Return (VObject o)) /\
    objects σ' =
      <[o := assign (default ∅ (objects σ !! o)) (installed o l)]> (objects σ) /\
    (forall m, methods = Some m -> arrays σ' = <[m := spliced l]> (arrays σ)).
Proof.
  intros Hl. destruct methods as [m|]; cbn in Hl; cbn [addAsync].
  - destruct (addAsync_object_spec o m σ l Hl) as (σ' & -> & Ho & Ha).
    exists σ'. split; [done|]. split; [done|]. by intros ? [= <-].
  - injection Hl as <-.
    destruct (addAsync_object_spec o (fresh (dom (arrays σ)))
                (set_array (fresh (dom (arrays σ))) default_methods σ)
                default_methods) as (σ' & -> & Ho & Ha).
    { cbn. by rewrite lookup_insert_eq. }
    exists σ'. split; [done|]. split; [done|]. done.
Qed.

(** ** Calls depend on the objects only *)

Lemma get_prop_objects σ1 σ2 o key :
  objects σ1 = objects σ2 -> get_prop σ1 o key = get_prop σ2 o key.
Proof. intros H. unfold get_prop. by rewrite H. Qed.

Lemma addAsync_default_objects v σ1 σ2 :
  objects σ1 = objects σ2 ->
  objects (fst (addAsync v None σ1)) = objects (fst (addAsync v None σ2)) /\
  snd (addAsync v None σ1) = snd (addAsync v None σ2).
Proof.
  intros H.
  destruct v as [| | | | | | | | |o| |]; cbn [addAsync];
    try (cbn [set_array arrays]; rewrite !lookup_insert_eq; by cbn);
    try done.
  destruct (addAsync_spec o None σ1 default_methods eq_refl)
    as (σ1' & E1 & O1 & _).
  destruct (addAsync_spec o None σ2 default_methods eq_refl)
    as (σ2' & E2 & O2 & _).
  cbn [addAsync] in E1, E2. rewrite E1, E2. cbn [fst snd].
  by rewrite O1, O2, H.
Qed.

Lemma call_objects native fuel :
  forall p this arguments σ1 σ2,
    objects σ1 = objects σ2 ->
    same_outcome (call native fuel p this arguments σ1)
                 (call native fuel p this arguments σ2).
Proof.
  induction fuel as [|fuel IH]; intros p this arguments σ1 σ2 H; [done|].
  assert (Hmember : forall o key args τ1 τ2,
            objects τ1 = objects τ2 ->
            same_outcome (call_member (call native fuel) o key args τ1)
                         (call_member (call native fuel) o key args τ2)).
  { intros o key args τ1 τ2 Hτ. unfold call_member.
    rewrite (get_prop_objects τ1 τ2 o key Hτ).
    destruct (get_prop τ2 o key); [by apply IH|done]. }
  destruct p as [name| | |app|app method]; cbn [call].
  - rewrite H. by destruct (native name this arguments (objects σ2)).
  - done.
  - rewrite (get_prop_objects σ1 σ2 this "route" H).
    destruct (get_prop σ2 this "route") as [route|]; [|done].
    pose proof (IH route this arguments σ1 σ2 H) as Hroute.
    destruct (call native fuel route this arguments σ1)
      as [[τ1 [v1|e1]]|],
      (call native fuel route this arguments σ2)
      as [[τ2 [v2|e2]]|]; cbn in Hroute; try done;
      destruct Hroute as [Hτ Hc]; try done.
    injection Hc as ->.
    destruct (addAsync_default_objects v2 τ1 τ2 Hτ) as [Ho Hs].
    destruct (addAsync v2 None τ1), (addAsync v2 None τ2). done.
  - by apply Hmember.
  - destruct (array_map _wrapArg arguments); [by apply Hmember|done].
Qed.

Lemma call_method_objects native fuel o key arguments σ1 σ2 :
  objects σ1 = objects σ2 ->
  same_outcome (call_method native fuel o key arguments σ1)
               (call_method native fuel o key arguments σ2).
Proof.
  intros H. unfold call_method, call_member.
  rewrite (get_prop_objects σ1 σ2 o key H).
  destruct (get_prop σ2 o key); [by apply call_objects|done].
Qed.

(** ** Augmenting twice *)

(** After the assignments for [l], those for the spliced names add
    nothing, when the splice removed the only "param". *)
Lemma assign_installed_spliced o l (P : gmap string prop) :
  "param" ∉ spliced l ->
  assign (assign P (installed o l)) (installed o (spliced l)) =
    assign P (installed o l).
Proof.
  intros Hn. rewrite !assign_union, (assoc_L (∪)). f_equal.
  apply map_subseteq_union.
  unfold installed at 1.
  assert (Hi : indexOf (spliced l) "param" = None) by by apply indexOf_None.
  assert (Hs : spliced (spliced l) = spliced l)
    by (unfold spliced at 1; by rewrite Hi).
  rewrite Hi, Hs. unfold installed.
  rewrite !reverse_cons, !reverse_app, !list_to_map_app.
  rewrite <- !(assoc_L (∪)).
  apply map_union_mono_l.
  destruct (indexOf l "param"); cbn [app reverse].
  - rewrite reverse_singleton. cbn [list_to_map foldr fst snd].
    rewrite reverse_nil. cbn [list_to_map foldr].
    rewrite (left_id_L ∅ (∪)).
    apply map_union_subseteq_r, map_disjoint_spec.
    intros k x y Hx Hy.
    apply lookup_insert_Some in Hx as [[<- _]|[_ Hx]]; [|done].
    apply lookup_insert_Some in Hy as [[Hk _]|[_ Hy]]; done.
  - done.
Qed.

(** C8, amended. [addAsync] returns the object it was given, after
    assigning the generated methods on that very object.  Augmenting the
    object again with the same names (the default ones both times, or
    arrays that hold the same names), or with the array of the first
    call, which the first call spliced, provided "param" is not left in
    it, leaves the objects exactly as the first augmentation left them;
    so any method called after two augmentations ends as after one. *)
Theorem addAsync_idempotent
    (o : loc) (methods1 methods2 : option loc) (σ : store)
    (l l2 : list string) :
  method_names σ methods1 = Some l ->
  method_names (fst (addAsync (VObject o) methods1 σ)) methods2 = Some l2 ->
  l2 = l \/ (l2 = spliced l /\ "param" ∉ l2) ->
  let r1 := addAsync (VObject o) methods1 σ in
  let r2 := addAsync (VObject o) methods2 (fst r1) in
  snd r1 = Return (VObject o) /\
  snd r2 = Return (VObject o) /\
  objects (fst r1) =
    <[o := assign (default ∅ (objects σ !! o)) (installed o l)]> (objects σ) /\
  objects (fst r2) = objects (fst r1) /\
  forall native fuel o' key arguments,
    same_outcome (call_method native fuel o' key arguments (fst r2))
                 (call_method native fuel o' key arguments (fst r1)).
Proof.
  intros H1 H2 Hl2 r1 r2. subst r1 r2.
  destruct (addAsync_spec o methods1 σ l H1) as (σ1 & E1 & O1 & _).
  rewrite E1 in *. cbn [fst snd] in *.
  destruct (addAsync_spec o methods2 σ1 l2 H2) as (σ2 & E2 & O2 & _).
  rewrite E2. cbn [fst snd].
  assert (Heq : objects σ2 = objects σ1).
  { rewrite O2, O1, lookup_insert_eq. cbn [default].
    rewrite insert_insert_eq. f_equal.
    destruct Hl2 as [->|[-> Hn]].
    - apply assign_idemp.
    - by apply assign_installed_spliced. }
  repeat split; try done.
  intros native fuel o' key arguments. by apply call_method_objects.
Qed.

Lemma addAsync_idempotent_witness :
  let r1 := addAsync (VObject 0) None router_store in
  let r2 := addAsync (VObject 0) None (fst r1) in
  snd r1 = Return (VObject 0) /\
  snd r2 = Return (VObject 0) /\
  objects (fst r2) = objects (fst r1) /\
  same_outcome
    (call_method chainable 2 0 "getAsync" [VString "/x"] (fst r2))
    (call_method chainable 2 0 "getAsync" [VString "/x"] (fst r1)).
Proof.
  destruct (addAsync_idempotent 0 None None router_store
              default_methods default_methods eq_refl eq_refl
              (or_introl eq_refl))
    as (Hr1 & Hr2 & _ & Hobjs & Hcalls).
  split; [exact Hr1|]. split; [exact Hr2|]. split; [exact Hobjs|].
  apply Hcalls.
Defined.

(** The same array passed twice, with "param" in it once. *)
Example addAsync_twice_same_array :
  let σ := store_with_names ["get"; "param"] in
  let r1 := addAsync (VObject 0) (Some 1) σ in
  let r2 := addAsync (VObject 0) (Some 1) (fst r1) in
  arrays (fst r1) !! 1 = Some ["get"] /\ objects (fst r2) = objects (fst r1).
Proof.
  split; vm_compute; reflexivity.
Qed.

(** C8, as stated, fails: the same array passed twice when it named
    "param" twice.  The first call leaves one "param" in it, so the loop
    assigns [paramAsync] the generic wrapper; the second call splices
    that one out and assigns the dedicated wrapper.  The same call of
    [paramAsync] then hands [param] a function wrapped by [wrap] after
    one augmentation and one wrapped by [wrapParam] after two. *)
Lemma addAsync_reused_array_not_idempotent :
  let σ := store_with_names ["param"; "param"] in
  let r1 := addAsync (VObject 0) (Some 1) σ in
  let r2 := addAsync (VObject 0) (Some 1) (fst r1) in
  get_prop (fst r1) 0 "paramAsync" = Some (PMethodAsync 0 "param") /\
  get_prop (fst r2) 0 "paramAsync" = Some (PParamAsync 0) /\
  call_method hands_back 2 0 "paramAsync"
    [VString "id"; VFunction (UserFn 0 4)] (fst r1) =
    Some (fst r1, Return (VFunction (wrap (UserFn 0 4)))) /\
  call_method hands_back 2 0 "paramAsync"
    [VString "id"; VFunction (UserFn 0 4)] (fst r2) =
    Some (fst r2, Return (VFunction (wrapParam (UserFn 0 4)))).
Proof. repeat split; vm_compute; reflexivity. Qed.

(** ** Methods the routable does not have *)

(** [addAsync] ends with the loop over the spliced names. *)
Lemma addAsync_shape o methods σ l :
  method_names σ methods = Some l ->
  exists σmid,
    addAsync (VObject o) methods σ =
      (install_methods o (spliced l) σmid, Return (VObject o)) /\
    (indexOf l "param" ≠ None ->
     get_prop σmid o "paramAsync" = Some (PParamAsync o)).
Proof.
  assert (Hobj : forall m τ, arrays τ !! m = Some l ->
            exists σmid,
              addAsync_object o m τ =
                (install_methods o (spliced l) σmid, Return (VObject o)) /\
              (indexOf l "param" ≠ None ->
               get_prop σmid o "paramAsync" = Some (PParamAsync o))).
  { intros m τ Hl. unfold addAsync_object, spliced.
    cbn [set_prop arrays]. rewrite Hl.
    destruct (indexOf l "param") as [i|] eqn:Hi.
    - eexists. split.
      + cbn [set_prop set_array arrays]. rewrite lookup_insert_eq. done.
      + intros _. rewrite get_prop_set_prop. by rewrite decide_True.
    - eexists. split; [|done]. cbn [set_prop arrays]. by rewrite Hl. }
  intros Hl. destruct methods as [m|]; cbn in Hl; cbn [addAsync].
  - by apply Hobj.
  - injection Hl as <-. apply Hobj. cbn. by rewrite lookup_insert_eq.
Qed.

(** C9. [addAsync] checks no name against the routable: whatever the
    object has, the augmentation returns it.  A generated method whose
    name the augmented routable lacks fails when it is called, after its
    arguments were normalized, with the error of calling what is not a
    function; the same holds for [paramAsync] when the routable has no
    [param]. *)
Theorem missing_method_fails_at_call
    (native : string -> loc -> list jsval -> gmap loc (gmap string prop) ->
              gmap loc (gmap string prop) * completion jsval)
    (o : loc) (methods : option loc) (σ : store) (l : list string)
    (fuel : nat) :
  method_names σ methods = Some l ->
  let r := addAsync (VObject o) methods σ in
  snd r = Return (VObject o) /\
  (forall method arguments args,
     method ∈ spliced l ->
     get_prop (fst r) o method = None ->
     array_map _wrapArg arguments = Return args ->
     call_method native (S fuel) o (method +:+ "Async") arguments (fst r) =
       Some (fst r, Throw not_a_function)) /\
  (forall arguments,
     "param" ∈ l -> "param" ∉ spliced l ->
     get_prop (fst r) o "param" = None ->
     call_method native (S fuel) o "paramAsync" arguments (fst r) =
       Some (fst r, Throw not_a_function)).
Proof.
  intros Hl r. subst r.
  destruct (addAsync_shape o methods σ l Hl) as (σmid & -> & Hparam).
  cbn [fst snd]. split; [done|]. split.
  - intros method arguments args Hin Hnone Hargs.
    unfold call_method, call_member at 1.
    rewrite get_prop_install_methods by done.
    cbn [call]. rewrite Hargs. unfold call_member. by rewrite Hnone.
  - intros arguments Hin Hnot Hnone.
    unfold call_method, call_member at 1.
    rewrite get_prop_install_methods_other.
    + rewrite Hparam.
      * cbn [call]. unfold call_member. by rewrite Hnone.
      * intros Hi. by apply indexOf_None in Hi.
    + right. intros m Hm Heq.
      change "paramAsync" with ("param" +:+ "Async") in Heq.
      apply string_app_inj_r in Heq. by subst.
Qed.

Lemma missing_method_fails_at_call_witness :
  let r := addAsync (VObject 0) None router_store in
  snd r = Return (VObject 0) /\
  call_method chainable 1 0 "putAsync"
    [VString "/x"; VFunction (UserFn 0 2)] (fst r) =
    Some (fst r, Throw not_a_function).
Proof.
  destruct (missing_method_fails_at_call chainable 0 None router_store
              default_methods 0 eq_refl) as (Hr & Hcall & _).
  split; [exact Hr|].
  apply (Hcall "put" _ [VString "/x"; VFunction (wrap (UserFn 0 2))]).
  - apply list_elem_of_In. vm_compute. tauto.
  - vm_compute. reflexivity.
  - reflexivity.
Defined.

(** ** The caller's array *)

(** C10, as stated, fails: from an array that names "param" twice only
    the first entry is removed, and the array still holds "param" when
    [addAsync] returns. *)
Lemma addAsync_leaves_second_param :
  exists l',
    arrays (fst (addAsync (VObject 0) (Some 1)
                   (store_with_names ["param"; "get"; "param"]))) !! 1 =
      Some l' /\
    "param" ∈ l'.
Proof.
  exists ["get"; "param"]. split; [reflexivity|].
  apply list_elem_of_In. right. left. reflexivity.
Qed.

(** C10, amended. When the array the caller passes holds "param",
    [addAsync] removes from that very array the first "param" entry, at
    the index [indexOf] finds, and nothing else: the array is one entry
    shorter, the entries before and after it are kept in order, and no
    other array changes.  The array no longer holds "param" when no
    later entry was "param". *)
Theorem addAsync_splices_first_param
    (o : loc) (m : loc) (σ : store) (l : list string) :
  arrays σ !! m = Some l ->
  "param" ∈ l ->
  let σ' := fst (addAsync (VObject o) (Some m) σ) in
  exists i,
    l !! i = Some "param" /\
    ("param" ∉ take i l) /\
    arrays σ' !! m = Some (take i l ++ drop (S i) l) /\
    S (length (take i l ++ drop (S i) l)) = length l /\
    (forall a, a ≠ m -> arrays σ' !! a = arrays σ !! a) /\
    ("param" ∉ drop (S i) l -> "param" ∉ (take i l ++ drop (S i) l)).
Proof.
  intros Hl Hin σ'. subst σ'.
  destruct (addAsync_spec o (Some m) σ l Hl) as (σ1 & -> & _ & Ha).
  cbn [fst]. rewrite (Ha m eq_refl). unfold spliced.
  destruct (indexOf l "param") as [i|] eqn:Hi.
  - destruct (indexOf_Some l "param" i Hi) as [Hli Hbefore].
    exists i. rewrite <- delete_take_drop.
    split; [done|]. split; [done|].
    split; [by rewrite lookup_insert_eq|].
    split.
    + rewrite length_delete by done.
      apply lookup_lt_Some in Hli. lia.
    + split.
      * intros a Hne. by rewrite lookup_insert_ne.
      * intros Hafter. rewrite delete_take_drop.
        intros H. apply elem_of_app in H as [H|H]; done.
  - apply indexOf_None in Hi. done.
Qed.

Lemma addAsync_splices_first_param_witness :
  arrays (fst (addAsync (VObject 0) (Some 1)
                 (store_with_names ["use"; "param"; "get"]))) !! 1 =
    Some ["use"; "get"].
Proof.
  destruct (addAsync_splices_first_param 0 1
              (store_with_names ["use"; "param"; "get"])
              ["use"; "param"; "get"] eq_refl) as (i & Hi & _ & Ha & _).
  - apply list_elem_of_In. right. left. reflexivity.
  - destruct i as [|[|[|i]]]; try discriminate Hi. exact Ha.
Defined.

(** ** Errors of the classifier at the call *)

(** C7. The argument classifier returns a path string and a pattern
    object unchanged and replaces a function by [wrap] of it; an array
    is normalized element by element into a new array whose elements are
    the normalized elements in the same order (so of equal length), and
    it fails when an element does; any other shape throws the error that
    names [typeof] of the argument.  The error is raised inside the call
    of the [...Async] method that [addAsync] installed: the call throws
    it at once and leaves the store as it was, whatever the framework's
    own methods would do. *)
Theorem wrapArg_classifies_and_throws_at_call :
  (forall s, _wrapArg (VString s) = Return (VString s)) /\
  (forall r, _wrapArg (VRegExp r) = Return (VRegExp r)) /\
  (forall f, _wrapArg (VFunction f) = Return (VFunction (wrap f))) /\
  (forall l r,
     _wrapArg (VArray l) = Return r <->
     exists l', r = VArray l' /\ length l' = length l /\
                Forall2 (fun x y => _wrapArg x = Return y) l l') /\
  (forall l x e,
     x ∈ l -> _wrapArg x = Throw e ->
     exists kind, _wrapArg (VArray l) = Throw (unexpected_kind kind)) /\
  (forall arg,
     typeof arg ≠ "string" -> typeof arg ≠ "function" ->
     isArray arg = false -> isRegExp arg = false ->
     _wrapArg arg = Throw (unexpected_kind (typeof arg))) /\
  (forall native fuel o methods σ l method arguments x e,
     method_names σ methods = Some l -> method ∈ spliced l ->
     x ∈ arguments -> _wrapArg x = Throw e ->
     let σ' := fst (addAsync (VObject o) methods σ) in
     exists kind,
       call_method native (S fuel) o (method +:+ "Async") arguments σ' =
         Some (σ', Throw (unexpected_kind kind))).
Proof.
  repeat split.
  - rewrite _wrapArg_array.
    destruct (array_map _wrapArg l) as [ys|e] eqn:Hl; cbn [bind]; [|done].
    intros [= <-]. apply array_map_Return in Hl.
    exists ys. split; [done|]. split; [|done].
    symmetry. by eapply Forall2_length.
  - intros (l' & -> & _ & H). rewrite _wrapArg_array.
    apply array_map_Return in H. by rewrite H.
  - intros l x e Hin Hx. rewrite _wrapArg_array.
    destruct (array_map_throws _ _ _ _ Hin Hx) as [e' He']. rewrite He'.
    cbn [bind]. apply array_map_Throw in He' as (z & _ & Hz).
    apply _wrapArg_Throw in Hz as [kind ->]. by exists kind.
  - intros arg Hs Hf Ha Hr. by destruct arg.
  - intros native fuel o methods σ l method arguments x e Hl Hm Hin Hx σ'.
    subst σ'.
    destruct (addAsync_shape o methods σ l Hl) as (σmid & -> & _).
    cbn [fst]. unfold call_method, call_member.
    rewrite get_prop_install_methods by done.
    destruct (array_map_throws _ _ _ _ Hin Hx) as [e' He'].
    cbn [call]. rewrite He'.
    apply array_map_Throw in He' as (z & _ & Hz).
    apply _wrapArg_Throw in Hz as [kind ->]. by exists kind.
Qed.

Lemma wrapArg_classifies_and_throws_at_call_witness :
  _wrapArg (VArray [VString "/x"; VFunction (UserFn 0 3)]) =
    Return (VArray [VString "/x"; VFunction (wrap (UserFn 0 3))]) /\
  _wrapArg (VNumber 3) = Throw (unexpected_kind "number") /\
  (let σ' := fst (addAsync (VObject 0) None router_store) in
   exists kind,
     call_method chainable 1 0 "getAsync"
       [VString "/x"; VArray [VNull]] σ' =
       Some (σ', Throw (unexpected_kind kind))).
Proof.
  destruct wrapArg_classifies_and_throws_at_call
    as (_ & _ & _ & Harr & _ & Hother & Hcall).
  split; [|split].
  - apply Harr. eexists. split; [reflexivity|]. split; [reflexivity|].
    repeat constructor.
  - apply Hother; [discriminate|discriminate|reflexivity|reflexivity].
  - apply (Hcall chainable 0 0 None router_store default_methods "get"
             _ (VArray [VNull]) (unexpected_kind "object")).
    + reflexivity.
    + apply list_elem_of_In. vm_compute. tauto.
    + apply list_elem_of_In. right. left. reflexivity.
    + reflexivity.
Defined.

(** * Further properties of the code *)

(** ** The classifier on whole values *)

Lemma first_refused_array (l : list jsval) :
  first_refused (VArray l) =
    match l with
    | [] => None
    | x :: r =>
        match first_refused x with
        | Some bad => Some bad
        | None => first_refused (VArray r)
        end
    end.
Proof. by destruct l. Qed.

Lemma _wrapArg_cons (x : jsval) (r : list jsval) :
  _wrapArg (VArray (x :: r)) =
    (let* y := _wrapArg x in
     let* rest := _wrapArg (VArray r) in
     match rest with
     | VArray ys => Return (VArray (y :: ys))
     | _ => Return rest
     end).
Proof.
  rewrite !_wrapArg_array. cbn [array_map].
  destruct (_wrapArg x) as [y|e]; cbn [bind]; [|done].
  by destruct (array_map _wrapArg r).
Qed.

(** X1. The classifier returns exactly on the values made of strings,
    functions, RegExps and arrays of those, and what it returns is the
    argument with every function in it, at any depth, replaced by
    [wrap] of it: nesting, order and every other entry are kept. *)
Theorem wrapArg_returns_normalized (arg r : jsval) :
  _wrapArg arg = Return r <-> admissible arg = true /\ r = normalized arg.
Proof.
  revert r. induction arg as [v Hv|l IH] using jsval_nested_ind; intros r.
  - destruct v; try discriminate Hv; cbn;
      (split; [try discriminate; by intros [= <-]
              |intros [? ->]; try discriminate; done]).
  - induction l as [|x l' IHl] in IH, r |- *.
    + cbn. split; [by intros [= <-]|by intros [_ ->]].
    + apply Forall_cons in IH as [IHx IHr].
      rewrite _wrapArg_cons.
      change (admissible (VArray (x :: l')))
        with (admissible x && admissible (VArray l')).
      change (normalized (VArray (x :: l')))
        with (VArray (normalized x :: map normalized l')).
      split.
      * destruct (_wrapArg x) as [y|e] eqn:Hx; cbn [bind]; [|done].
        destruct (_wrapArg (VArray l')) as [rest|e] eqn:Hr; cbn [bind]; [|done].
        destruct (proj1 (IHx y) eq_refl) as [-> ->].
        destruct (proj1 (IHl IHr rest) eq_refl) as [-> ->]. cbn [normalized].
        by intros [= <-].
      * intros [Ha ->]. apply andb_true_iff in Ha as [Hax Har].
        rewrite (proj2 (IHx _) (conj Hax eq_refl)). cbn [bind].
        by rewrite (proj2 (IHl IHr _) (conj Har eq_refl)).
Qed.

(** X2. The classifier throws exactly on a value that holds a leaf it
    refuses, and the error names [typeof] of the first such leaf in the
    order of the indices: of the element itself, not of the array
    around it. *)
Theorem wrapArg_throws_first_refused (arg e : jsval) :
  _wrapArg arg = Throw e <->
  exists bad, first_refused arg = Some bad /\
              e = unexpected_kind (typeof bad).
Proof.
  revert e. induction arg as [v Hv|l IH] using jsval_nested_ind; intros e.
  - destruct v; try discriminate Hv; cbn;
      (split; [try discriminate; intros [= <-]; by eexists
              |intros (bad & Hb & ->); try discriminate;
               by injection Hb as <-]).
  - induction l as [|x l' IHl] in IH, e |- *.
    + cbn. split; [done|by intros (? & ? & _)].
    + apply Forall_cons in IH as [IHx IHr].
      rewrite _wrapArg_cons, first_refused_array.
      destruct (_wrapArg x) as [y|e'] eqn:Hx; cbn [bind].
      * assert (Hnone : first_refused x = None).
        { destruct (first_refused x) as [bad|] eqn:Hb; [|done].
          assert (Return y = Throw (unexpected_kind (typeof bad))) as Ht
            by (apply IHx; by exists bad).
          discriminate Ht. }
        rewrite Hnone. rewrite <- (IHl IHr e).
        destruct (_wrapArg (VArray l')) as [rest|e''] eqn:Hr; cbn [bind];
          [|done].
        by destruct rest.
      * destruct (proj1 (IHx e') eq_refl) as (bad & -> & ->).
        split.
        -- intros [= <-]. by exists bad.
        -- intros (bad' & [= <-] & ->). done.
Qed.

(** ** Where the wrappers read their arguments *)

(** X3. The closure of [wrap] reads the continuation at the last
    position its reported length declares and the response just before
    it.  Wrapping a wrapper again changes neither the reported length
    nor the two positions, and [wrap] of a [wrapParam] closure reads
    where that closure reads. *)
Theorem wrap_reads_last_parameters (h : jsfun) :
  wrapper_indices (wrap h) =
    Some (fn_length (wrap h) - 2, fn_length (wrap h) - 1) /\
  fn_length (wrap (wrap h)) = fn_length (wrap h) /\
  wrapper_indices (wrap (wrap h)) = wrapper_indices (wrap h) /\
  wrapper_indices (wrap (wrapParam h)) = wrapper_indices (wrapParam h).
Proof.
  unfold wrap, wrapParam, wrapParam_captured.
  cbn [fn_length wrapper_indices].
  destruct (Nat.eqb (fn_length h) 4); cbn; done.
Qed.

(** ** One invocation: which call is delivered *)

Lemma first_call_delivered_call_guard env who arguments s0 w :
  first_call_delivered s0 w ->
  first_call_delivered s0 (fst (call_guard env (Some SNext) who arguments w)).
Proof.
  intros [Hd Hc]. rewrite call_guard_unfold. unfold first_call_delivered.
  destruct (called w) eqn:Hcalled; cbn [fst called fw attempts apply_slot delivered].
  - destruct (attempts w) as [|a r] eqn:Ha; [done|].
    split; [|done]. by rewrite Hd.
  - destruct (attempts w) as [|a r] eqn:Ha; [|done].
    split; [|done]. rewrite Hd. cbn. by rewrite app_nil_r.
Qed.

(** Whatever calls on the guard and sending the response preserve holds
    all along an invocation. *)
Lemma invocation_invariant (P : world -> Prop) env fn args res next :
  (forall who arguments w, P w -> P (fst (call_guard env next who arguments w))) ->
  (forall w, P w -> P (send w)) ->
  forall w, P w ->
    P (fst (try_handler env fn args next w)) /\
    P (fst (_mainWrap env fn args res next w)).
Proof.
  intros Hcall Hsend.
  assert (Haction : forall holds a w, P w ->
            P (fst (run_action env next holds a w))).
  { intros holds [|arguments caught] w H; cbn [run_action fst]; [by apply Hsend|].
    destruct holds; [|done].
    specialize (Hcall ByHandler arguments w H).
    by destruct (call_guard env next ByHandler arguments w). }
  assert (Hactions : forall holds acts w, P w ->
            P (fst (run_actions env next holds acts w))).
  { intros holds acts. induction acts as [|a rest IH]; intros w H; [done|].
    cbn [run_actions]. specialize (Haction holds a w H).
    destruct (run_action env next holds a w) as [w' [v|e]]; [by apply IH|done]. }
  assert (Hlater : forall holds acts w, P w ->
            P (run_later env next holds acts w)).
  { intros holds acts. induction acts as [|a rest IH]; intros w H; [done|].
    cbn [run_later]. by apply IH, Haction. }
  assert (Hcatch : forall err w, P w ->
            P (fst (catch_clause env res next err w))).
  { intros err w H. unfold catch_clause.
    destruct (read_headersSent res w) as [[]|e]; cbn; try done.
    specialize (Hcall ByWrapper [err] w H).
    by destruct (call_guard env next ByWrapper [err] w) as [w' [v|e]]. }
  assert (Hawait : forall w, P w -> P (fst (after_await env res next w))).
  { intros w H. unfold after_await.
    destruct (read_headersSent res w) as [[]|e]; cbn; try done.
    - specialize (Hcall ByWrapper [] w H).
      destruct (call_guard env next ByWrapper [] w) as [w' [v|e]]; [done|].
      by apply Hcatch.
    - by apply Hcatch. }
  assert (Htry : forall w, P w -> P (fst (try_handler env fn args next w))).
  { intros w H. unfold try_handler.
    pose proof (Hactions (holds_guard args) (body fn) w H) as Hb.
    destruct (run_actions env next (holds_guard args) (body fn) w)
      as [w1 [v|e]]; [|done].
    destruct (result fn) as [v'|e|pending st]; [done|done|].
    pose proof (Hactions (holds_guard args) pending w1 Hb) as Hp.
    destruct (run_actions env next (holds_guard args) pending w1)
      as [w2 [v'|e]]; [|done].
    by destruct st. }
  intros w H. split; [by apply Htry|].
  unfold _mainWrap. specialize (Htry w H).
  destruct (try_handler env fn args next w) as [w1 [[v| |]|err]];
    cbn [fst] in Htry.
  - by apply Hlater.
  - specialize (Hawait w1 Htry).
    destruct (after_await env res next w1) as [w' st]. by apply Hlater.
  - by apply Hlater.
  - specialize (Hcatch err w1 Htry).
    destruct (catch_clause env res next err w1) as [w' st]. by apply Hlater.
Qed.

(** X4. In a call that follows the protocol, what reaches the
    framework's continuation is the first call made on the guard, with
    its arguments, whoever made it, the handler or the wrapper; every
    later call on the guard is dropped.  A handler that calls [next]
    itself and then fails has its own call delivered, not the error. *)
Theorem first_call_on_guard_is_delivered
    (env : environment) (f : jsfun) (fn : behaviour)
    (arguments : list slot) (s : framework) :
  protocol f arguments ->
  exists w st,
    invoke env f fn arguments s = Some (w, st) /\
    delivered (fw w) = delivered s ++ take 1 (map snd (attempts w)).
Proof.
  intros Hp.
  destruct (protocol_invoke env f fn arguments s Hp) as (args' & _ & -> & _).
  assert (H0 : first_call_delivered s (fresh_world s)).
  { split; [|done]. cbn. by rewrite app_nil_r. }
  destruct (invocation_invariant (first_call_delivered s) env fn args'
              (Some SResponse) (Some SNext)
              (fun who a w => first_call_delivered_call_guard env who a s w)
              (fun w H => H) (fresh_world s) H0) as [_ [Hd _]].
  destruct (_mainWrap env fn args' (Some SResponse) (Some SNext)
              (fresh_world s)) as [w st].
  by exists w, st.
Qed.

Lemma first_call_on_guard_is_delivered_witness :
  exists w,
    invoke quiet_env (wrap (UserFn 0 3)) calls_next_then_rejects
      middleware_arguments idle = Some (w, Fulfilled) /\
    attempts w = [(ByHandler, []); (ByWrapper, [oops])] /\
    delivered (fw w) = [[]].
Proof.
  destruct (first_call_on_guard_is_delivered quiet_env (wrap (UserFn 0 3))
              calls_next_then_rejects middleware_arguments idle)
    as (w & st & Hinv & Hd).
  - apply protocol_wrap_middleware. cbn. lia.
  - cbn in Hinv. injection Hinv as <- <-.
    eexists. split; [reflexivity|]. split; [reflexivity|exact Hd].
Defined.

(** ** One invocation: calls off the protocol, and handlers that never
    settle *)

(** The call of a wrapper closure and the handler's part of it. *)
Lemma invoke_handler_run env f fn arguments s r n :
  wrapper_indices f = Some (r, n) ->
  invoke env f fn arguments s =
    Some (_mainWrap env fn (<[n := SOnce]> arguments)
            (<[n := SOnce]> arguments !! r) (arguments !! n)
            (fresh_world s)) /\
  handler_run env f fn arguments s =
    Some (try_handler env fn (<[n := SOnce]> arguments) (arguments !! n)
            (fresh_world s)).
Proof.
  intros Hi. unfold handler_run. rewrite Hi.
  by destruct f as [id k|g r' n' k nm|g k]; cbn in Hi; [done| |];
    injection Hi as <- <-.
Qed.

Lemma catch_clause_settles env res next err w :
  snd (catch_clause env res next err w) ≠ Pending.
Proof.
  unfold catch_clause.
  destruct (read_headersSent res w) as [[]|e]; cbn; try done.
  by destruct (call_guard env next ByWrapper [err] w) as [w' [v|e]].
Qed.

Lemma after_await_settles env res next w :
  snd (after_await env res next w) ≠ Pending.
Proof.
  unfold after_await.
  destruct (read_headersSent res w) as [[]|e]; cbn; try done.
  - destruct (call_guard env next ByWrapper [] w) as [w' [v|e]]; [done|].
    apply catch_clause_settles.
  - apply catch_clause_settles.
Qed.

(** X5. The wrapper's own promise stays pending exactly when the
    promise the handler returned never settles; the wrapper then makes
    no call of the continuation, and the request is left to whatever the
    handler's callbacks do. *)
Theorem wrapper_pending_iff_handler_never_settles
    (env : environment) (f : jsfun) (fn : behaviour)
    (arguments : list slot) (s : framework) :
  (forall w2,
     handler_run env f fn arguments s = Some (w2, Return Suspended) ->
     exists w,
       invoke env f fn arguments s = Some (w, Pending) /\
       wrapper_calls w = []) /\
  (forall w,
     invoke env f fn arguments s = Some (w, Pending) ->
     exists w2,
       handler_run env f fn arguments s = Some (w2, Return Suspended)).
Proof.
  destruct (wrapper_indices f) as [[r n]|] eqn:Hi.
  - destruct (invoke_handler_run env f fn arguments s r n Hi) as [-> ->].
    pose proof (wrapper_calls_try_handler env fn (<[n := SOnce]> arguments)
                  (arguments !! n) (fresh_world s)) as Hwc.
    unfold _mainWrap.
    destruct (try_handler env fn (<[n := SOnce]> arguments) (arguments !! n)
                (fresh_world s)) as [w1 [[v| |]|err]]; cbn [fst] in Hwc.
    + split; [intros w2 [=]|intros w [=]].
    + pose proof (after_await_settles env
                    (<[n := SOnce]> arguments !! r) (arguments !! n) w1) as Hs.
      destruct (after_await env _ _ w1) as [w' st]. cbn [snd] in Hs.
      split; [intros w2 [=]|]. intros w [= _ ->]. done.
    + split.
      * intros w2 [= <-]. eexists. split; [done|].
        by rewrite wrapper_calls_run_later.
      * intros w _. by eexists.
    + pose proof (catch_clause_settles env
                    (<[n := SOnce]> arguments !! r) (arguments !! n) err w1)
        as Hs.
      destruct (catch_clause env _ _ err w1) as [w' st]. cbn [snd] in Hs.
      split; [intros w2 [=]|]. intros w [= _ ->]. done.
  - unfold handler_run. rewrite Hi.
    split; [done|]. intros w H. by destruct f.
Qed.

Lemma wrapper_pending_iff_handler_never_settles_witness :
  exists w,
    invoke quiet_env (wrap (UserFn 0 2)) never_settles
      middleware_arguments idle = Some (w, Pending) /\
    wrapper_calls w = [] /\ delivered (fw w) = [].
Proof.
  destruct (wrapper_pending_iff_handler_never_settles quiet_env
              (wrap (UserFn 0 2)) never_settles middleware_arguments idle)
    as [Hpending _].
  destruct (Hpending (fresh_world idle) eq_refl) as (w & Hinv & Hw).
  exists w. split; [exact Hinv|]. split; [exact Hw|].
  cbn in Hinv. injection Hinv as <-. reflexivity.
Defined.

(** X6. A wrapper called with too few arguments to hold a response,
    whose handler fails or returns a promise that is fulfilled, cannot
    read [headersSent]: the [TypeError] of that read leaves the [catch]
    clause too, so the wrapper's promise is rejected with it, and the
    wrapper makes no call of the continuation. *)
Theorem missing_response_rejects
    (env : environment) (f : jsfun) (fn : behaviour)
    (arguments : list slot) (s : framework)
    (r n : nat) (w2 : world) (c : completion awaited) :
  wrapper_indices f = Some (r, n) ->
  arguments !! r = None ->
  handler_run env f fn arguments s = Some (w2, c) ->
  c = Return Resumed \/ (exists e, c = Throw e) ->
  exists w,
    invoke env f fn arguments s = Some (w, Rejected cannot_read_property) /\
    wrapper_calls w = [].
Proof.
  intros Hi Hr Hrun Hc.
  destruct (invoke_handler_run env f fn arguments s r n Hi) as [-> Hrun'].
  rewrite Hrun' in Hrun. injection Hrun as Hrun.
  assert (Hres : <[n := SOnce]> arguments !! r = None).
  { apply lookup_ge_None. rewrite length_insert. by apply lookup_ge_None. }
  pose proof (wrapper_calls_try_handler env fn (<[n := SOnce]> arguments)
                (arguments !! n) (fresh_world s)) as Hwc.
  unfold _mainWrap. rewrite Hrun in *. cbn [fst] in Hwc. rewrite Hres.
  destruct Hc as [-> | [e ->]];
    unfold after_await, catch_clause; cbn [read_headersSent];
    eexists; (split; [done|]); by rewrite wrapper_calls_run_later.
Qed.

Lemma missing_response_rejects_witness :
  exists w,
    invoke quiet_env (wrap (UserFn 0 3)) rejects_with_oops [SRequest] idle =
      Some (w, Rejected cannot_read_property) /\
    wrapper_calls w = [].
Proof.
  apply (missing_response_rejects quiet_env (wrap (UserFn 0 3))
           rejects_with_oops [SRequest] idle 1 2 (fresh_world idle)
           (Throw oops)).
  - reflexivity.
  - reflexivity.
  - reflexivity.
  - right. by exists oops.
Defined.

Lemma call_guard_no_continuation env who arguments w :
  fw (fst (call_guard env None who arguments w)) = fw w.
Proof. rewrite call_guard_unfold. by destruct (called w). Qed.

(** X7. A wrapper called with a response but with no continuation where
    it reads one (as in a call with the request and the response only)
    never reaches the framework: the guard holds [undefined].  When the
    handler's promise is fulfilled and the response is not sent, the
    [TypeError] of reading [apply] of [undefined] is caught and dropped,
    and the wrapper's promise is fulfilled.  When the handler fails
    instead, its error is lost: the wrapper's promise is rejected with
    that [TypeError]. *)
Theorem missing_continuation_is_silent
    (env : environment) (f : jsfun) (fn : behaviour)
    (arguments : list slot) (s : framework) (r n : nat) (w2 : world) :
  wrapper_indices f = Some (r, n) ->
  arguments !! r = Some SResponse ->
  arguments !! n = None ->
  headersSent (fw w2) = false ->
  (handler_run env f fn arguments s = Some (w2, Return Resumed) ->
   exists w,
     invoke env f fn arguments s = Some (w, Fulfilled) /\
     delivered (fw w) = delivered s) /\
  (forall e,
     called w2 = false ->
     handler_run env f fn arguments s = Some (w2, Throw e) ->
     exists w,
       invoke env f fn arguments s = Some (w, Rejected cannot_read_property) /\
       delivered (fw w) = delivered s).
Proof.
  intros Hi Hr Hn Hsent.
  destruct (invoke_handler_run env f fn arguments s r n Hi) as [-> ->].
  assert (Hargs : <[n := SOnce]> arguments = arguments).
  { apply list_insert_ge. by apply lookup_ge_None. }
  rewrite Hargs, Hr, Hn.
  destruct (invocation_invariant
              (fun w => delivered (fw w) = delivered s) env fn arguments
              (Some SResponse) None) with (w := fresh_world s) as [_ Hd].
  { intros who a w H. by rewrite call_guard_no_continuation. }
  { by intros w H. }
  { done. }
  unfold _mainWrap in *.
  split.
  - intros [= Hrun]. rewrite Hrun in *.
    unfold after_await in *. cbn [read_headersSent] in *.
    rewrite Hsent in *. cbn [negb] in *.
    rewrite call_guard_unfold in *.
    destruct (called w2) eqn:Hcalled; cbn [apply_slot fst snd bind] in *.
    + eexists. by split.
    + unfold catch_clause in *. cbn [read_headersSent fw] in *.
      rewrite Hsent in *. cbn [negb] in *.
      rewrite call_guard_called in * by done.
      eexists. by split.
  - intros e Hcalled [= Hrun]. rewrite Hrun in *.
    unfold catch_clause in *. cbn [read_headersSent] in *.
    rewrite Hsent in *. cbn [negb] in *.
    rewrite call_guard_unfold in *. rewrite Hcalled in *.
    cbn [apply_slot fst snd bind] in *.
    eexists. by split.
Qed.

Lemma missing_continuation_is_silent_witness :
  exists w,
    invoke quiet_env (wrap (UserFn 0 2)) rejects_with_oops
      [SRequest; SResponse] idle = Some (w, Rejected cannot_read_property) /\
    delivered (fw w) = [].
Proof.
  destruct (missing_continuation_is_silent quiet_env (wrap (UserFn 0 2))
              rejects_with_oops [SRequest; SResponse] idle 1 2
              (fresh_world idle) eq_refl eq_refl eq_refl eq_refl)
    as [_ Hfail].
  exact (Hfail oops eq_refl eq_refl).
Defined.

(** ** What [addAsync] assigns, and what it leaves alone *)

Lemma assign_app (P : gmap string prop) (kvs1 kvs2 : list (string * prop)) :
  assign P (kvs1 ++ kvs2) = assign (assign P kvs1) kvs2.
Proof. unfold assign. by rewrite foldl_app. Qed.

Lemma assign_lookup_other (P : gmap string prop) kvs key :
  key ∉ map fst kvs -> assign P kvs !! key = P !! key.
Proof.
  revert P. induction kvs as [|[k v] r IH]; intros P Hn; [done|].
  cbn [assign foldl fst snd]. fold (assign (<[k:=v]> P) r).
  rewrite IH.
  - apply lookup_insert_ne. intros ->. apply Hn. by left.
  - intros H. apply Hn. by right.
Qed.

(** The last assignment to a key is the one that stays. *)
Lemma assign_lookup_last (P : gmap string prop) kvs1 kvs2 key v :
  key ∉ map fst kvs2 ->
  assign P (kvs1 ++ (key, v) :: kvs2) !! key = Some v.
Proof.
  intros Hn. rewrite assign_app. cbn [assign foldl fst snd].
  fold (assign (<[key:=v]> (assign P kvs1)) kvs2).
  rewrite assign_lookup_other by done. apply lookup_insert_eq.
Qed.

Lemma get_prop_addAsync o methods σ l o' key :
  method_names σ methods = Some l ->
  get_prop (fst (addAsync (VObject o) methods σ)) o' key =
    if decide (o' = o)
    then assign (default ∅ (objects σ !! o)) (installed o l) !! key
    else get_prop σ o' key.
Proof.
  intros Hl. destruct (addAsync_spec o methods σ l Hl) as (σ' & -> & Ho & _).
  cbn [fst]. unfold get_prop. rewrite Ho.
  destruct (decide (o' = o)) as [->|Hne].
  - by rewrite lookup_insert_eq.
  - by rewrite lookup_insert_ne.
Qed.

Lemma elem_of_method_keys o (l : list string) key :
  key ∈ map fst (map (fun m => (m +:+ "Async", PMethodAsync o m)) l) ->
  exists m, m ∈ l /\ key = m +:+ "Async".
Proof.
  rewrite map_map. cbn. intros H.
  apply list_elem_of_In, in_map_iff in H as (m & <- & Hm).
  exists m. split; [by apply list_elem_of_In|done].
Qed.

(** [addAsync] leaves alone every property it does not assign, and
    every other object. *)
Lemma addAsync_frame o methods σ l :
  method_names σ methods = Some l ->
  (forall key, key ∉ map fst (installed o l) ->
     get_prop (fst (addAsync (VObject o) methods σ)) o key = get_prop σ o key) /\
  (forall o' key, o' ≠ o ->
     get_prop (fst (addAsync (VObject o) methods σ)) o' key = get_prop σ o' key).
Proof.
  intros Hl. split.
  - intros key Hkey. rewrite (get_prop_addAsync o methods σ l) by done.
    rewrite decide_True by done. rewrite assign_lookup_other by done.
    unfold get_prop. by destruct (objects σ !! o).
  - intros o' key Hne. rewrite (get_prop_addAsync o methods σ l) by done.
    by rewrite decide_False.
Qed.

(** Which value each assigned property ends with. *)
Lemma addAsync_keys o methods σ l :
  method_names σ methods = Some l ->
  let σ' := fst (addAsync (VObject o) methods σ) in
  (forall m, m ∈ spliced l ->
     get_prop σ' o (m +:+ "Async") = Some (PMethodAsync o m)) /\
  ("route" ∉ spliced l -> get_prop σ' o "routeAsync" = Some PRouteAsync) /\
  ("param" ∈ l -> "param" ∉ spliced l ->
   get_prop σ' o "paramAsync" = Some (PParamAsync o)).
Proof.
  intros Hl σ'. subst σ'. split; [|split].
  - intros m Hm.
    destruct (addAsync_shape o methods σ l Hl) as (σmid & -> & _).
    by apply get_prop_install_methods.
  - intros Hroute. rewrite (get_prop_addAsync o methods σ l) by done.
    rewrite decide_True by done. unfold installed.
    apply (assign_lookup_last _ []).
    rewrite map_app. intros H. apply elem_of_app in H as [H|H].
    + destruct (indexOf l "param"); cbn in H.
      * apply list_elem_of_In in H. cbn in H. by destruct H.
      * by apply elem_of_nil in H.
    + apply elem_of_method_keys in H as (m & Hm & Heq).
      change "routeAsync" with ("route" +:+ "Async") in Heq.
      apply string_app_inj_r in Heq. by subst.
  - intros Hin Hnot. rewrite (get_prop_addAsync o methods σ l) by done.
    rewrite decide_True by done. unfold installed.
    destruct (indexOf l "param") as [i|] eqn:Hi.
    + apply (assign_lookup_last _ [_]).
      intros H. apply elem_of_method_keys in H as (m & Hm & Heq).
      change "paramAsync" with ("param" +:+ "Async") in Heq.
      apply string_app_inj_r in Heq. by subst.
    + by apply indexOf_None in Hi.
Qed.

(** X8. A generated method whose arguments the classifier accepts calls
    the routable's own method of that name once, on the routable, with
    the normalized arguments in their order, and returns what that call
    returns or throws what it throws. *)
Theorem generated_method_forwards
    (native : string -> loc -> list jsval -> gmap loc (gmap string prop) ->
              gmap loc (gmap string prop) * completion jsval)
    (o : loc) (methods : option loc) (σ : store) (l : list string)
    (fuel : nat) (method name : string) (arguments args : list jsval) :
  method_names σ methods = Some l ->
  method ∈ spliced l ->
  let σ' := fst (addAsync (VObject o) methods σ) in
  get_prop σ' o method = Some (PNative name) ->
  array_map _wrapArg arguments = Return args ->
  call_method native (S (S fuel)) o (method +:+ "Async") arguments σ' =
    Some ({| objects := fst (native name o args (objects σ'));
             arrays := arrays σ' |},
          snd (native name o args (objects σ'))).
Proof.
  intros Hl Hm σ' Hnative Hargs.
  destruct (addAsync_keys o methods σ l Hl) as (Hkey & _).
  fold σ' in Hkey.
  unfold call_method, call_member at 1. rewrite (Hkey method Hm).
  cbn [call]. rewrite Hargs. unfold call_member. rewrite Hnative.
  cbn [call]. by destruct (native name o args (objects σ')).
Qed.

Lemma generated_method_forwards_witness :
  let σ' := fst (addAsync (VObject 0) None router_store) in
  call_method chainable 2 0 "getAsync"
    [VString "/x"; VArray [VFunction (UserFn 0 4)]] σ' =
    Some (σ', Return (VObject 0)).
Proof.
  intros σ'.
  etransitivity;
    [apply (generated_method_forwards chainable 0 None router_store
              default_methods 0 "get" "get"
              [VString "/x"; VArray [VFunction (UserFn 0 4)]]
              [VString "/x"; VArray [VFunction (wrap (UserFn 0 4))]])|].
  - reflexivity.
  - apply list_elem_of_In. vm_compute. tauto.
  - vm_compute. reflexivity.
  - reflexivity.
  - vm_compute. reflexivity.
Defined.

(** X9. The dedicated [paramAsync] calls the routable's own [param]
    with two arguments whatever it was given: its first argument as it
    is, and a wrapper of its second argument that reports length 5.
    Neither is checked or normalized, and further arguments are
    dropped. *)
Theorem paramAsync_forwards
    (native : string -> loc -> list jsval -> gmap loc (gmap string prop) ->
              gmap loc (gmap string prop) * completion jsval)
    (o : loc) (methods : option loc) (σ : store) (l : list string)
    (fuel : nat) (name : string) (arguments : list jsval) :
  method_names σ methods = Some l ->
  "param" ∈ l -> "param" ∉ spliced l ->
  let σ' := fst (addAsync (VObject o) methods σ) in
  get_prop σ' o "param" = Some (PNative name) ->
  exists wrapped,
    fn_length wrapped = 5 /\
    wrapped = wrapParam_captured (as_function (argument arguments 1)) /\
    call_method native (S (S fuel)) o "paramAsync" arguments σ' =
      Some ({| objects :=
                 fst (native name o
                        [argument arguments 0; VFunction wrapped]
                        (objects σ'));
               arrays := arrays σ' |},
            snd (native name o [argument arguments 0; VFunction wrapped]
                   (objects σ'))).
Proof.
  intros Hl Hin Hnot σ' Hnative.
  destruct (addAsync_keys o methods σ l Hl) as (_ & _ & Hkey).
  fold σ' in Hkey.
  eexists. split; [|split; [reflexivity|]]; [done|].
  unfold call_method, call_member at 1. rewrite (Hkey Hin Hnot).
  cbn [call]. unfold call_member. rewrite Hnative. cbn [call].
  by destruct (native name o _ (objects σ')).
Qed.

Lemma paramAsync_forwards_witness :
  let σ' := fst (addAsync (VObject 0) None router_store) in
  call_method chainable 2 0 "paramAsync"
    [VString "id"; VFunction (UserFn 0 4); VNumber 7] σ' =
    Some (σ', Return (VObject 0)).
Proof.
  intros σ'. subst σ'.
  destruct (paramAsync_forwards chainable 0 None router_store
              default_methods 0 "param"
              [VString "id"; VFunction (UserFn 0 4); VNumber 7])
    as (wrapped & _ & _ & ->).
  - reflexivity.
  - apply list_elem_of_In. vm_compute. tauto.
  - intros H. apply list_elem_of_In in H. vm_compute in H.
    intuition discriminate.
  - vm_compute. reflexivity.
  - vm_compute. reflexivity.
Defined.

(** X10. [addAsync] assigns nothing but properties whose name ends in
    "Async": every other property of the routable, the framework's own
    methods among them, is what it was, and so is every property of
    every other object. *)
Theorem addAsync_keeps_other_properties
    (o : loc) (methods : option loc) (σ : store) (l : list string) :
  method_names σ methods = Some l ->
  let σ' := fst (addAsync (VObject o) methods σ) in
  (forall key, (forall s, key ≠ s +:+ "Async") ->
     get_prop σ' o key = get_prop σ o key) /\
  (forall key, key ∉ map fst (installed o l) ->
     get_prop σ' o key = get_prop σ o key) /\
  (forall o' key, o' ≠ o -> get_prop σ' o' key = get_prop σ o' key).
Proof.
  intros Hl σ'. subst σ'.
  destruct (addAsync_frame o methods σ l Hl) as [Hkeys Hobjs].
  split; [|by split].
  intros key Hkey. apply Hkeys. unfold installed.
  rewrite map_cons. cbn [fst].
  intros H. apply elem_of_cons in H as [->|H]; [by apply (Hkey "route")|].
  rewrite map_app in H. apply elem_of_app in H as [H|H].
  - destruct (indexOf l "param"); cbn in H.
    + apply list_elem_of_In in H. cbn in H.
      destruct H as [<-|[]]. by apply (Hkey "param").
    + by apply elem_of_nil in H.
  - apply elem_of_method_keys in H as (m & _ & ->). by apply (Hkey m).
Qed.

Lemma addAsync_keeps_other_properties_witness :
  get_prop (fst (addAsync (VObject 0) None router_store)) 0 "get" =
    Some (PNative "get").
Proof.
  destruct (addAsync_keeps_other_properties 0 None router_store
              default_methods eq_refl) as (Hkeep & _).
  rewrite Hkeep; [reflexivity|].
  intros s H. apply (f_equal String.length) in H.
  rewrite string_length_app in H. cbn in H. lia.
Defined.

(** X11. The loop over the names comes last, so a generated method wins
    over the two special ones.  [routeAsync] is the route wrapper that
    augments what [route] returns unless "route" is among the names, in
    which case it is the generic wrapper of [route].  [paramAsync] is the
    dedicated wrapper when "param" was named once, and the generic
    wrapper of [param], which wraps with [wrap], when "param" is still
    among the names after the splice. *)
Theorem addAsync_generated_method_wins
    (o : loc) (methods : option loc) (σ : store) (l : list string) :
  method_names σ methods = Some l ->
  let σ' := fst (addAsync (VObject o) methods σ) in
  ("route" ∉ spliced l -> get_prop σ' o "routeAsync" = Some PRouteAsync) /\
  ("route" ∈ spliced l ->
   get_prop σ' o "routeAsync" = Some (PMethodAsync o "route")) /\
  ("param" ∈ l -> "param" ∉ spliced l ->
   get_prop σ' o "paramAsync" = Some (PParamAsync o)) /\
  ("param" ∈ spliced l ->
   get_prop σ' o "paramAsync" = Some (PMethodAsync o "param")).
Proof.
  intros Hl σ'. subst σ'.
  destruct (addAsync_keys o methods σ l Hl) as (Hkey & Hroute & Hparam).
  split; [done|]. split; [|split; [done|]].
  - intros H. apply (Hkey "route" H).
  - intros H. apply (Hkey "param" H).
Qed.

Lemma addAsync_generated_method_wins_witness :
  get_prop (fst (addAsync (VObject 0) (Some 1)
                   (store_with_names ["get"; "route"]))) 0 "routeAsync" =
    Some (PMethodAsync 0 "route").
Proof.
  destruct (addAsync_generated_method_wins 0 (Some 1)
              (store_with_names ["get"; "route"]) ["get"; "route"] eq_refl)
    as (_ & Hroute & _).
  apply Hroute. apply list_elem_of_In. right. left. reflexivity.
Defined.

(** ** The arrays of names *)

Lemma arrays_addAsync_default o σ :
  arrays (fst (addAsync (VObject o) None σ)) =
    <[fresh (dom (arrays σ)) := spliced default_methods]> (arrays σ).
Proof.
  destruct (addAsync_object_spec o (fresh (dom (arrays σ)))
              (set_array (fresh (dom (arrays σ))) default_methods σ)
              default_methods) as (σ' & E & _ & Ha).
  { cbn. by rewrite lookup_insert_eq. }
  cbn [addAsync]. rewrite E. cbn [fst]. rewrite Ha.
  cbn [set_array arrays]. by rewrite insert_insert_eq.
Qed.

(** X12. A call of [addAsync] without names works on an array of its
    own: every array that existed before the call is what it was.  A
    call with an array that does not name "param" leaves all arrays as
    they were. *)
Theorem addAsync_keeps_arrays (o : loc) (σ : store) :
  (forall a l0,
     arrays σ !! a = Some l0 ->
     arrays (fst (addAsync (VObject o) None σ)) !! a = Some l0) /\
  (forall m l,
     arrays σ !! m = Some l -> "param" ∉ l ->
     arrays (fst (addAsync (VObject o) (Some m) σ)) = arrays σ).
Proof.
  split.
  - intros a l0 Ha. rewrite arrays_addAsync_default.
    rewrite lookup_insert_ne; [done|].
    intros <-. apply (is_fresh (dom (arrays σ))).
    apply elem_of_dom. by eexists.
  - intros m l Hl Hn.
    destruct (addAsync_spec o (Some m) σ l Hl) as (σ' & -> & _ & Ha).
    cbn [fst]. rewrite (Ha m eq_refl). unfold spliced.
    apply indexOf_None in Hn. rewrite Hn. by apply insert_id.
Qed.

Lemma addAsync_keeps_arrays_witness :
  arrays (fst (addAsync (VObject 0) None
                 (store_with_names ["get"; "param"]))) !! 1 =
    Some ["get"; "param"].
Proof.
  destruct (addAsync_keeps_arrays 0 (store_with_names ["get"; "param"]))
    as [Hdefault _].
  by apply Hdefault.
Defined.

(** X13. An array of names is used up by its first use.  After one
    object was augmented with an array that named "param" once, a second
    object augmented with the same array gets the generated methods of
    the other names but no [paramAsync]: that property of the second
    object is what it was before. *)
Theorem spliced_array_gives_no_paramAsync
    (o1 o2 : loc) (m : loc) (σ : store) (l : list string) :
  arrays σ !! m = Some l ->
  "param" ∈ l -> "param" ∉ spliced l ->
  o1 ≠ o2 ->
  let σ1 := fst (addAsync (VObject o1) (Some m) σ) in
  let σ2 := fst (addAsync (VObject o2) (Some m) σ1) in
  get_prop σ1 o1 "paramAsync" = Some (PParamAsync o1) /\
  get_prop σ2 o2 "paramAsync" = get_prop σ o2 "paramAsync" /\
  (forall name, name ∈ spliced l ->
     get_prop σ2 o2 (name +:+ "Async") = Some (PMethodAsync o2 name)).
Proof.
  intros Hl Hin Hnot Hne σ1 σ2.
  destruct (addAsync_keys o1 (Some m) σ l Hl) as (_ & _ & Hparam).
  fold σ1 in Hparam.
  assert (Hl1 : method_names σ1 (Some m) = Some (spliced l)).
  { subst σ1. destruct (addAsync_spec o1 (Some m) σ l Hl)
      as (σ' & -> & _ & Ha).
    cbn [fst method_names]. rewrite (Ha m eq_refl). apply lookup_insert_eq. }
  assert (Hi : indexOf (spliced l) "param" = None) by by apply indexOf_None.
  assert (Hs : spliced (spliced l) = spliced l)
    by (unfold spliced at 1; by rewrite Hi).
  destruct (addAsync_frame o2 (Some m) σ1 (spliced l) Hl1) as [Hkeys _].
  destruct (addAsync_frame o1 (Some m) σ l Hl) as [_ Hobjs].
  destruct (addAsync_keys o2 (Some m) σ1 (spliced l) Hl1) as (Hkey & _).
  fold σ1 in Hobjs. fold σ2 in Hkeys, Hkey.
  split; [by apply Hparam|]. split.
  - rewrite Hkeys; [by apply Hobjs|].
    unfold installed. rewrite Hi, Hs. rewrite map_cons. cbn [fst app].
    intros H. apply elem_of_cons in H as [H|H]; [done|].
    apply elem_of_method_keys in H as (name & Hname & Heq).
    change "paramAsync" with ("param" +:+ "Async") in Heq.
    apply string_app_inj_r in Heq. by subst.
  - intros name Hname. apply Hkey. by rewrite Hs.
Qed.

Lemma spliced_array_gives_no_paramAsync_witness :
  let σ := {| objects := {[ 0 := ∅; 5 := ∅ ]};
              arrays := {[ 1 := ["get"; "param"] ]} |} in
  let σ1 := fst (addAsync (VObject 0) (Some 1) σ) in
  let σ2 := fst (addAsync (VObject 5) (Some 1) σ1) in
  get_prop σ1 0 "paramAsync" = Some (PParamAsync 0) /\
  get_prop σ2 5 "paramAsync" = None /\
  get_prop σ2 5 "getAsync" = Some (PMethodAsync 5 "get").
Proof.
  intros σ σ1 σ2.
  destruct (spliced_array_gives_no_paramAsync 0 5 1 σ ["get"; "param"])
    as (H1 & H2 & H3).
  - reflexivity.
  - apply list_elem_of_In. right. left. reflexivity.
  - intros H. apply list_elem_of_In in H. vm_compute in H.
    intuition discriminate.
  - discriminate.
  - split; [exact H1|]. split; [exact H2|].
    apply (H3 "get"). apply list_elem_of_In. left. reflexivity.
Defined.

(** ** Sub-routes and routers *)

Lemma default_methods_spliced :
  ("route" ∉ spliced default_methods) /\
  ("param" ∈ default_methods) /\ ("param" ∉ spliced default_methods).
Proof.
  split; [|split].
  - intros H. apply list_elem_of_In in H. vm_compute in H.
    intuition discriminate.
  - apply list_elem_of_In. vm_compute. tauto.
  - intros H. apply list_elem_of_In in H. vm_compute in H.
    intuition discriminate.
Qed.

(** X14. [routeAsync] calls the receiver's own [route] with its
    arguments.  When that returns an object, [routeAsync] returns the
    same object augmented with the default names, whatever names the
    receiver itself was augmented with: the sub-route has its own
    [routeAsync] and [paramAsync] and a generated method for each of the
    other default names, so calls can be chained, and no other object
    changes.  When [route] throws, [routeAsync] throws the same and
    augments nothing. *)
Theorem routeAsync_returns_augmented_route
    (native : string -> loc -> list jsval -> gmap loc (gmap string prop) ->
              gmap loc (gmap string prop) * completion jsval)
    (o : loc) (σ : store) (fuel : nat) (name : string)
    (arguments : list jsval) :
  get_prop σ o "routeAsync" = Some PRouteAsync ->
  get_prop σ o "route" = Some (PNative name) ->
  (forall objs route,
     native name o arguments (objects σ) = (objs, Return (VObject route)) ->
     exists σ',
       call_method native (S (S fuel)) o "routeAsync" arguments σ =
         Some (σ', Return (VObject route)) /\
       get_prop σ' route "routeAsync" = Some PRouteAsync /\
       get_prop σ' route "paramAsync" = Some (PParamAsync route) /\
       (forall m, m ∈ spliced default_methods ->
          get_prop σ' route (m +:+ "Async") = Some (PMethodAsync route m)) /\
       (forall o' key, o' ≠ route ->
          get_prop σ' o' key = objs !! o' ≫= (.!! key))) /\
  (forall objs e,
     native name o arguments (objects σ) = (objs, Throw e) ->
     call_method native (S (S fuel)) o "routeAsync" arguments σ =
       Some ({| objects := objs; arrays := arrays σ |}, Throw e)).
Proof.
  intros Hra Hroute.
  assert (Hcall : call_method native (S (S fuel)) o "routeAsync" arguments σ =
            match native name o arguments (objects σ) with
            | (objs, Throw e) =>
                Some ({| objects := objs; arrays := arrays σ |}, Throw e)
            | (objs, Return v) =>
                Some (addAsync v None {| objects := objs; arrays := arrays σ |})
            end).
  { unfold call_method, call_member. rewrite Hra. cbn [call].
    rewrite Hroute. cbn [call].
    by destruct (native name o arguments (objects σ)) as [objs [v|e]]. }
  rewrite Hcall. split.
  - intros objs route ->.
    set (τ := {| objects := objs; arrays := arrays σ |}).
    destruct default_methods_spliced as (Hr & Hp & Hnp).
    destruct (addAsync_spec route None τ default_methods eq_refl)
      as (σ' & E & _ & _).
    destruct (addAsync_keys route None τ default_methods eq_refl)
      as (Hkey & Hkr & Hkp).
    destruct (addAsync_frame route None τ default_methods eq_refl)
      as [_ Hobjs].
    rewrite E in *. cbn [fst] in *.
    exists σ'. split; [done|]. split; [by apply Hkr|].
    split; [by apply Hkp|]. split; [done|].
    intros o' key Hne. by rewrite Hobjs.
  - by intros objs e ->.
Qed.

Lemma routeAsync_returns_augmented_route_witness :
  let σ := fst (addAsync (VObject 0) (Some 1) (store_with_names ["get"])) in
  exists σ',
    call_method (fun _ _ _ objs => (<[7 := ∅]> objs, Return (VObject 7)))
      2 0 "routeAsync" [VString "/foo"] σ = Some (σ', Return (VObject 7)) /\
    get_prop σ' 7 "postAsync" = Some (PMethodAsync 7 "post").
Proof.
  intros σ.
  destruct (routeAsync_returns_augmented_route
              (fun _ _ _ objs => (<[7 := ∅]> objs, Return (VObject 7)))
              0 σ 0 "route" [VString "/foo"]) as [Hok _].
  - vm_compute. reflexivity.
  - vm_compute. reflexivity.
  - destruct (Hok _ 7 eq_refl) as (σ' & Hcall & _ & _ & Hkey & _).
    exists σ'. split; [exact Hcall|].
    apply (Hkey "post"). apply list_elem_of_In. vm_compute. tauto.
Defined.


